(** * Motion-activated reaction game: round state machine and motion detection

    A shallow embedding of the game core of [index.ts] (the snapshot with
    lives and game over): [detectMotion], [checkVirtualButtons],
    [startRound], [endRound], [maybeAdvanceGameClock], [processFrame] and
    the fill decision of [drawVirtualButtons].

    Numbers.  A JavaScript number is a double; its value is a rational
    [Q].  The sums that set the two deadlines and the product that picks
    the target are rounded to the nearest double by [fl], as the program
    rounds them (53 bits, ties to even; the exponent range, which
    timestamps in milliseconds and numbers below the button count never
    reach, is not modelled).  The motion ratio and the scale of the knight
    image are taken exactly; for the declared buttons the ratio test on
    doubles decides the same, see [Double].  Pixel channels, counters and
    indices are integers [Z].  A read outside a typed array yields
    [undefined]; it is modelled as [None], and arithmetic on it (NaN)
    compares false with everything. *)

From Stdlib Require Import ZArith QArith Qround Qpower Lqa Lia List Bool.
From Stdlib Require Import Floats.SpecFloat.
Import ListNotations.
Open Scope Z_scope.

(** ** JavaScript number helpers *)

(** [a < b] on numbers. *)
Definition Qltb (a b : Q) : bool := negb (Qle_bool b a).

(** [a >= b] on numbers. *)
Definition Qgeb (a b : Q) : bool := Qle_bool b a.

(** *** Rounding to the nearest double *)

(** For [0 < x], the exponent [e] with [2 ^ e <= x < 2 ^ (e + 1)]. *)
Definition binade (x : Q) : Z :=
  let e0 := Z.log2 (Qnum x) - Z.log2 (Zpos (Qden x)) in
  if Qle_bool (2 ^ e0) x then e0 else e0 - 1.

(** The nearest integer, a tie going to the even one. *)
Definition roundHalfEven (m : Q) : Z :=
  let f := Qfloor m in
  match (m - inject_Z f ?= 1 # 2)%Q with
  | Lt => f
  | Gt => f + 1
  | Eq => if Z.even f then f else f + 1
  end.

(** For [0 < x], the nearest number with a significand of 53 bits. *)
Definition flPos (x : Q) : Q :=
  let q := (2 ^ (binade x - 52))%Q in
  (inject_Z (roundHalfEven (x / q)) * q)%Q.

(** The double nearest to [x]: the value of a sum or a product of doubles
    whose exact value is [x]. *)
Definition fl (x : Q) : Q :=
  Qred match Qnum x with
       | Z0 => 0%Q
       | Zpos _ => flPos x
       | Zneg _ => (- flPos (- x))%Q
       end.

(** Half the distance between 1 and the next double, [2 ^ -53]: the
    relative error of [fl] is at most this. *)
Definition unitRoundoff : Q := 1 # 9007199254740992.

(** The readings of [performance.now()]: milliseconds since the page was
    loaded, not negative and at most [2 ^ 52]. *)
Definition clockRange (t : Q) : Prop :=
  (0 <= t)%Q /\ (t <= 4503599627370496)%Q.

(** [Math.abs(a - b)] where either operand may be [undefined]. *)
Definition absDiff (a b : option Z) : option Z :=
  match a, b with
  | Some u, Some v => Some (Z.abs (u - v))
  | _, _ => None
  end.

(** [a + b] where [None] stands for NaN. *)
Definition numAdd (a b : option Z) : option Z :=
  match a, b with
  | Some u, Some v => Some (u + v)
  | _, _ => None
  end.

(** [a > k]; false on NaN. *)
Definition numGt (a : option Z) (k : Z) : bool :=
  match a with
  | Some u => k <? u
  | None => false
  end.

(** ** Constants and data *)

Definition ROUND_MS : Q := 2000.
Definition FLASH_MS : Q := 500.
Definition MAX_HP : Z := 3.
Definition THRESHOLD : Q := 15 # 100.

Definition BUTTON_SIZE : Z := 84.
Definition BUTTON_PADDING : Z := 16.
Definition ROW_GAP : Z := 12.

Inductive Action := capture | grayscale | save.
Inductive Side := sideTop | sideLeft | sideRight.
Inductive FlashColor := success | fail.

(** A button; [x] and [y] are closures over [canvas.width], here functions
    of the canvas width. *)
Record Button := mkButton {
  action : Action;
  side : Side;
  btn_w : Z;
  btn_h : Z;
  btn_x : Z -> Q;
  btn_y : Z -> Q
}.

Definition buttons : list Button :=
  [ mkButton capture sideTop BUTTON_SIZE BUTTON_SIZE
      (fun cw => (inject_Z cw - inject_Z BUTTON_SIZE) / 2)%Q
      (fun _ => inject_Z BUTTON_PADDING);
    mkButton grayscale sideLeft BUTTON_SIZE BUTTON_SIZE
      (fun _ => inject_Z BUTTON_PADDING)
      (fun _ => inject_Z (BUTTON_PADDING + BUTTON_SIZE + ROW_GAP));
    mkButton save sideRight BUTTON_SIZE BUTTON_SIZE
      (fun cw => inject_Z (cw - BUTTON_PADDING - BUTTON_SIZE))
      (fun _ => inject_Z (BUTTON_PADDING + BUTTON_SIZE + ROW_GAP)) ].

(** [ImageData]: [data] holds four channel bytes per pixel, row by row. *)
Record ImageData := mkImage {
  width : Z;
  height : Z;
  data : list Z
}.

(** The module-level game variables. *)
Record State := mkState {
  previousFrame : option ImageData;
  hp : Z;
  gameOver : bool;
  roundActive : bool;
  roundEndsAt : Q;
  targetIndex : Z;
  hitRecorded : bool;
  flashingTarget : option Z;
  flashEndsAt : Q;
  flashColor : option FlashColor;
  lastActivatedIndex : option Z
}.

Definition initialState : State :=
  mkState None MAX_HP false false 0 0 false None 0 None None.

(** ** Motion detection *)

(** One iteration of the loop of [detectMotion] at offset [i]: [curr] and
    [prev] are the arrays from offset [i] on. *)
Definition pixelDelta (prev curr : list Z) : option Z :=
  numAdd (numAdd (absDiff (nth_error curr 0) (nth_error prev 0))
                 (absDiff (nth_error curr 1) (nth_error prev 1)))
         (absDiff (nth_error curr 2) (nth_error prev 2)).

Definition pixelMotion (prev curr : list Z) : Z :=
  if numGt (pixelDelta prev curr) 50 then 255 else 0.

(** The loop [for (i = 0; i < curr.data.length; i += 4)], by recursion on
    the part of [curr] from offset [i] on.  The result has the length of
    [curr]; a write past the end of the result array is dropped. *)
Fixpoint detectLoop (prev curr : list Z) : list Z :=
  let motion := pixelMotion prev curr in
  match curr with
  | [] => []
  | [_] => [motion]
  | [_; _] => [motion; motion]
  | [_; _; _] => [motion; motion; motion]
  | _ :: _ :: _ :: _ :: rest =>
      motion :: motion :: motion :: 255 :: detectLoop (skipn 4 prev) rest
  end.

Definition detectMotion (prev curr : ImageData) : list Z :=
  detectLoop (data prev) (data curr).

(** ** Button hit test *)

(** [diff[di]] for a number [di]: defined only at an integer index inside
    the array. *)
Definition diffAt (diff : list Z) (di : Q) : option Z :=
  let r := Qred di in
  if (Qden r =? 1)%positive && (0 <=? Qnum r)
  then nth_error diff (Z.to_nat (Qnum r))
  else None.

(** The values of a loop variable in [for (v = lo; v < lo + n; v++)]. *)
Definition loopRange (lo : Q) (n : Z) : list Q :=
  map (fun k => (lo + inject_Z (Z.of_nat k))%Q) (seq 0 (Z.to_nat n)).

Definition motionAt (cw : Z) (diff : list Z) (j i : Q) : bool :=
  numGt (diffAt diff ((j * inject_Z cw + i) * 4)%Q) 128.

Definition motionCount (cw : Z) (diff : list Z) (btn : Button) : Z :=
  fold_left
    (fun acc j =>
       fold_left
         (fun acc' i => if motionAt cw diff j i then acc' + 1 else acc')
         (loopRange (btn_x btn cw) (btn_w btn)) acc)
    (loopRange (btn_y btn cw) (btn_h btn)) 0.

Definition totalPixels (btn : Button) : Z := btn_w btn * btn_h btn.

Definition ratio (cw : Z) (diff : list Z) (btn : Button) : Q :=
  (inject_Z (motionCount cw diff btn) / inject_Z (totalPixels btn))%Q.

(** The callback of [buttons.forEach]: the new value of [frameLast]. *)
Definition checkButton (cw : Z) (diff : list Z) (active : bool)
    (frameLast : option Z) (idx : Z) (btn : Button) : option Z :=
  if active && Qltb THRESHOLD (ratio cw diff btn)
  then Some idx
  else frameLast.

Fixpoint forEachButton (cw : Z) (diff : list Z) (active : bool)
    (btns : list Button) (idx : Z) (frameLast : option Z) : option Z :=
  match btns with
  | [] => frameLast
  | btn :: rest =>
      forEachButton cw diff active rest (idx + 1)
        (checkButton cw diff active frameLast idx btn)
  end.

Definition setLastActivated (v : option Z) (s : State) : State :=
  mkState (previousFrame s) (hp s) (gameOver s) (roundActive s)
    (roundEndsAt s) (targetIndex s) (hitRecorded s) (flashingTarget s)
    (flashEndsAt s) (flashColor s) v.

Definition checkVirtualButtons (btns : list Button) (cw : Z)
    (diff : list Z) (s : State) : State :=
  match forEachButton cw diff (roundActive s) btns 0 None with
  | Some k => setLastActivated (Some k) s
  | None => s
  end.

(** ** Game flow *)

(** [startRound]; [now] is its reading of the clock and [rnd] the value of
    [Math.random()]. *)
Definition startRound (btns : list Button) (now rnd : Q) (s : State) : State :=
  if gameOver s then s
  else
    mkState (previousFrame s) (hp s) (gameOver s)
      true
      (fl (now + ROUND_MS))
      (Qfloor (fl (rnd * inject_Z (Z.of_nat (length btns)))))
      false
      None
      (flashEndsAt s)
      None
      None.

Definition isHit (s : State) : bool :=
  match lastActivatedIndex s with
  | Some k => k =? targetIndex s
  | None => false
  end.

(** [endRound]; [now] is its reading of the clock. *)
Definition endRound (now : Q) (s : State) : State :=
  let hit := isHit s in
  let hp' := if hit then hp s else hp s - 1 in
  mkState (previousFrame s)
    hp'
    (if hit then gameOver s else if hp' =? 0 then true else gameOver s)
    false
    (roundEndsAt s)
    (targetIndex s)
    hit
    (Some (targetIndex s))
    (fl (now + FLASH_MS))
    (Some (if hit then success else fail))
    (lastActivatedIndex s).

Definition isSome {A : Type} (o : option A) : bool :=
  match o with Some _ => true | None => false end.

(** The clock readings and the random number one frame consumes: the call
    sites of [performance.now()] in [drawVirtualButtons],
    [maybeAdvanceGameClock], [endRound] and [startRound]. *)
Record Tick := mkTick {
  frame : ImageData;
  tDraw : Q;
  tClock : Q;
  tEnd : Q;
  tStart : Q;
  random : Q
}.

Definition maybeAdvanceGameClock (btns : list Button) (now tE tS rnd : Q)
    (s : State) : State :=
  let s1 :=
    if negb (gameOver s) && roundActive s && Qgeb now (roundEndsAt s)
    then endRound tE s else s in
  if negb (gameOver s1) && negb (roundActive s1)
     && isSome (flashingTarget s1) && Qgeb now (flashEndsAt s1)
  then startRound btns tS rnd s1 else s1.

Definition setPreviousFrame (f : option ImageData) (s : State) : State :=
  mkState f (hp s) (gameOver s) (roundActive s)
    (roundEndsAt s) (targetIndex s) (hitRecorded s) (flashingTarget s)
    (flashEndsAt s) (flashColor s) (lastActivatedIndex s).

(** The motion-detection step of [processFrame]. *)
Definition detectStep (btns : list Button) (cur : ImageData) (s : State)
    : State :=
  match previousFrame s with
  | Some prev =>
      let diff := detectMotion prev cur in
      if negb (gameOver s) then checkVirtualButtons btns (width cur) diff s
      else s
  | None => s
  end.

(** [processFrame]: one frame of the main loop.  [frame t] is the image
    read back from the canvas, whose width is [video.videoWidth]. *)
Definition processFrame (btns : list Button) (t : Tick) (s : State) : State :=
  if width (frame t) =? 0 then s
  else
    let s1 := detectStep btns (frame t) s in
    let s2 :=
      if negb (gameOver s1)
      then maybeAdvanceGameClock btns (tClock t) (tEnd t) (tStart t)
             (random t) s1
      else s1 in
    setPreviousFrame (Some (frame t)) s2.

(** [startCamera] starts the first round before the first frame. *)
Definition startCamera (btns : list Button) (now rnd : Q) : State :=
  startRound btns now rnd initialState.

(** The frames of a session, oldest first. *)
Definition run (btns : list Button) (ts : list Tick) (s : State) : State :=
  fold_left (fun st t => processFrame btns t st) ts s.

(** ** Drawing: the fill of a button *)

Inductive Fill := BTN_COLOR | tintSuccess | tintFail.

Definition eqOpt (o : option Z) (k : Z) : bool :=
  match o with Some v => v =? k | None => false end.

(** The fill [drawVirtualButtons] chooses for button [idx] at time [now]. *)
Definition buttonFill (now : Q) (s : State) (idx : Z) : Fill :=
  if negb (roundActive s) && eqOpt (flashingTarget s) idx
     && Qltb now (flashEndsAt s)
  then match flashColor s with
       | Some success => tintSuccess
       | _ => tintFail
       end
  else BTN_COLOR.

(** What [processFrame] draws on frame [t]: drawing follows the motion
    step and precedes the clock. *)
Definition drawnFill (btns : list Button) (t : Tick) (s : State) (idx : Z)
    : Fill :=
  buttonFill (tDraw t) (detectStep btns (frame t) s) idx.

(** ** The phases of the round clock, read off the game variables *)

Inductive Phase := Idle | RoundActive | Flash | GameOver.

Definition phase (s : State) : Phase :=
  if gameOver s then GameOver
  else if roundActive s then RoundActive
  else if isSome (flashingTarget s) then Flash
  else Idle.

(** * Views, evaluator and sample data *)

(** Channel [c] of pixel [p] of an image. *)
Definition channel (img : ImageData) (p c : nat) : Z :=
  nth (4 * p + c) (data img) 0.

(** The summed absolute channel difference of pixel [p]. *)
Definition sumAbs (prev curr : ImageData) (p : nat) : Z :=
  Z.abs (channel curr p 0 - channel prev p 0)
  + Z.abs (channel curr p 1 - channel prev p 1)
  + Z.abs (channel curr p 2 - channel prev p 2).

(** An image as [getImageData] returns it. *)
Definition wellFormed (img : ImageData) : Prop :=
  0 <= width img /\ 0 <= height img /\
  Z.of_nat (length (data img)) = 4 * (width img * height img).

(** The test [ratio > THRESHOLD] of the callback. *)
Definition exceeds (cw : Z) (diff : list Z) (btn : Button) : bool :=
  Qltb THRESHOLD (ratio cw diff btn).

(** The index of the last button of [btns] that passes the test, counting
    from [idx]. *)
Fixpoint lastExceeding (cw : Z) (diff : list Z) (btns : list Button)
    (idx : Z) : option Z :=
  match btns with
  | [] => None
  | btn :: rest =>
      match lastExceeding cw diff rest (idx + 1) with
      | Some r => Some r
      | None => if exceeds cw diff btn then Some idx else None
      end
  end.

(** The game variables without the stored frame. *)
Definition gameView (s : State) : State := setPreviousFrame None s.

(** The lives counter agrees with the game-over flag. *)
Definition livesOk (s : State) : Prop :=
  (gameOver s = false /\ 1 <= hp s <= MAX_HP) \/
  (gameOver s = true /\ hp s = 0).

(** The test [diff[di] > 128] the hit test applies to pixel [p] of a mask. *)
Definition maskMotion (mask : list Z) (p : nat) : bool :=
  numGt (nth_error mask (4 * p)) 128.

(** Two frames of one pixel whose channels differ by 20, 20 and 10. *)
Definition sample_prev : ImageData := mkImage 1 1 [10; 20; 30; 255].

Definition sample_curr : ImageData := mkImage 1 1 [30; 40; 40; 255].

(** The contract of the differ as the specification words it.  A motion
    mask says of each pixel whether it moved; for frames of equal
    dimensions the differ yields the mask that marks a pixel when its
    summed channel delta is greater than 50, and for other frames it
    fails with a dimension mismatch. *)
Inductive DiffResult :=
  | Mask (m : list bool)
  | DimensionMismatch.

Definition specMask (prev curr : ImageData) : list bool :=
  map (fun p => 50 <? sumAbs prev curr p)
      (seq 0 (Z.to_nat (width curr * height curr))).

Definition specDiff (prev curr : ImageData) : DiffResult :=
  if (width prev =? width curr) && (height prev =? height curr)
  then Mask (specMask prev curr)
  else DimensionMismatch.

(** The array [detectMotion] returns, read pixel by pixel the way the hit
    test reads it. *)
Definition motionPixels (mask : list Z) : list bool :=
  map (maskMotion mask) (seq 0 (length mask / 4)).

(** What [detectMotion] yields in terms of the contract: it has no failing
    path. *)
Definition detectMotionResult (prev curr : ImageData) : DiffResult :=
  Mask (motionPixels (detectMotion prev curr)).

(** A frame of one pixel and a frame of two. *)
Definition narrow_frame : ImageData := mkImage 1 1 [10; 20; 30; 255].

Definition wide_frame : ImageData :=
  mkImage 2 1 [200; 200; 200; 255; 200; 200; 200; 255].

(** A region of twenty pixels on a canvas twenty pixels wide. *)
Definition strip : Button :=
  mkButton capture sideTop 20 1 (fun _ => 0%Q) (fun _ => 0%Q).

(** [n] motion pixels followed by [k] still ones. *)
Definition maskRow (n k : nat) : list Z :=
  flat_map (fun _ => [255; 255; 255; 255]) (seq 0 n)
  ++ flat_map (fun _ => [0; 0; 0; 255]) (seq 0 k).

(** Two regions of one pixel each, side by side on a canvas of two. *)
Definition dot (x : Z) : Button :=
  mkButton capture sideTop 1 1 (fun _ => inject_Z x) (fun _ => 0%Q).

Definition dark2 : ImageData :=
  mkImage 2 1 [0; 0; 0; 255; 0; 0; 0; 255].

Definition lit2 : ImageData :=
  mkImage 2 1 [90; 90; 90; 255; 90; 90; 90; 255].

(** A state in the middle of a round that ends at 2000 ms. *)
Definition inRound (prev : ImageData) (target : Z) (last : option Z)
    : State :=
  mkState (Some prev) 3 false true 2000 target false None 0 None last.

(** A state in the flash after a missed round that ended at 2000 ms. *)
Definition inFlash (prev : ImageData) : State :=
  mkState (Some prev) 2 false false 2000 0 false (Some 0) 2500 (Some fail)
    None.

(** A frame on which no region passes the activation test; [prevF] is the
    frame stored before it. *)
Definition quietFrame (btns : list Button) (prevF : option ImageData)
    (t : Tick) : Prop :=
  match prevF with
  | Some prev =>
      forall b, In b btns ->
        exceeds (width (frame t)) (detectMotion prev (frame t)) b = false
  | None => True
  end.

(** The frame stored after frame [t]. *)
Definition storedAfter (prevF : option ImageData) (t : Tick)
    : option ImageData :=
  if width (frame t) =? 0 then prevF else Some (frame t).

Fixpoint quietRun (btns : list Button) (prevF : option ImageData)
    (ts : list Tick) : Prop :=
  match ts with
  | [] => True
  | t :: rest =>
      quietFrame btns prevF t /\ quietRun btns (storedAfter prevF t) rest
  end.

(** The region a frame of an active round activates: of the regions that
    pass the test, the one declared last.  [prevF] is the frame stored
    before it. *)
Definition frameWinner (btns : list Button) (prevF : option ImageData)
    (t : Tick) : option Z :=
  if width (frame t) =? 0 then None
  else
    match prevF with
    | Some prev =>
        lastExceeding (width (frame t)) (detectMotion prev (frame t)) btns 0
    | None => None
    end.

(** The activations over the frames [ts] of an active round, oldest
    first. *)
Fixpoint activations (btns : list Button) (prevF : option ImageData)
    (ts : list Tick) : list Z :=
  match ts with
  | [] => []
  | t :: rest =>
      match frameWinner btns prevF t with
      | Some k => k :: activations btns (storedAfter prevF t) rest
      | None => activations btns (storedAfter prevF t) rest
      end
  end.

(** The most recent of a list of activations, [before] when there is
    none. *)
Definition mostRecent (before : option Z) (acts : list Z) : option Z :=
  fold_left (fun _ k => Some k) acts before.

(** A frame on which every reading of the clock is [now] and
    [Math.random()] yields 0. *)
Definition tickAt (f : ImageData) (now : Q) : Tick :=
  mkTick f now now now now 0.

(** The rectangle of a button whose corners fall on whole pixels. *)
Record Rect := mkRect { rx : Z; ry : Z; rw : Z; rh : Z }.

(** Button [btn] occupies rectangle [r] on a canvas of width [cw]. *)
Definition layoutOf (cw : Z) (btn : Button) (r : Rect) : Prop :=
  (btn_x btn cw == inject_Z (rx r))%Q /\
  (btn_y btn cw == inject_Z (ry r))%Q /\
  btn_w btn = rw r /\ btn_h btn = rh r /\
  0 <= rx r /\ 0 <= ry r /\ 0 <= cw.

(** The pixels of rectangle [r] on a canvas [cw] pixels wide, row by row,
    each as its position in the mask. *)
Definition rectPixels (cw : Z) (r : Rect) : list nat :=
  flat_map
    (fun j =>
       map (fun i =>
              Z.to_nat ((ry r + Z.of_nat j) * cw + (rx r + Z.of_nat i)))
           (seq 0 (Z.to_nat (rw r))))
    (seq 0 (Z.to_nat (rh r))).

(** The number of pixels of rectangle [r] the mask marks as motion. *)
Definition motionPixelsIn (cw : Z) (diff : list Z) (r : Rect) : Z :=
  Z.of_nat (length (filter (maskMotion diff) (rectPixels cw r))).

(** Counts the motion entries among [n] pixels, four entries apart, from
    the head of [l]. *)
Fixpoint strideCount (n : nat) (l : list Z) (acc : Z) : Z :=
  match n with
  | O => acc
  | S n' =>
      strideCount n' (skipn 4 l)
        (if numGt (hd_error l) 128 then acc + 1 else acc)
  end.

(** Counts over [h] rows of [w] pixels; [l] starts at the first pixel of
    the first row and the rows are [stride] entries apart. *)
Fixpoint rowsCount (h w stride : nat) (l : list Z) (acc : Z) : Z :=
  match h with
  | O => acc
  | S h' => rowsCount h' w stride (skipn stride l) (strideCount w l acc)
  end.

Definition rectCount (cw : Z) (diff : list Z) (r : Rect) : Z :=
  rowsCount (Z.to_nat (rh r)) (Z.to_nat (rw r)) (Z.to_nat (4 * cw))
    (skipn (Z.to_nat (4 * (ry r * cw + rx r))) diff) 0.

Definition checkRect (cw : Z) (diff : list Z) (active : bool)
    (frameLast : option Z) (idx : Z) (r : Rect) : option Z :=
  if active
     && Qltb THRESHOLD
          (inject_Z (rectCount cw diff r) / inject_Z (rw r * rh r))%Q
  then Some idx
  else frameLast.

Fixpoint forEachRect (cw : Z) (diff : list Z) (active : bool)
    (rects : list Rect) (idx : Z) (frameLast : option Z) : option Z :=
  match rects with
  | [] => frameLast
  | r :: rest =>
      forEachRect cw diff active rest (idx + 1)
        (checkRect cw diff active frameLast idx r)
  end.

Definition checkRects (rects : list Rect) (cw : Z) (diff : list Z)
    (s : State) : State :=
  match forEachRect cw diff (roundActive s) rects 0 None with
  | Some k => setLastActivated (Some k) s
  | None => s
  end.

Definition detectStepRects (rects : list Rect) (cur : ImageData)
    (s : State) : State :=
  match previousFrame s with
  | Some prev =>
      if negb (gameOver s)
      then checkRects rects (width cur) (detectMotion prev cur) s
      else s
  | None => s
  end.

Definition processFrameRects (btns : list Button) (rects : list Rect)
    (t : Tick) (s : State) : State :=
  if width (frame t) =? 0 then s
  else
    let s1 := detectStepRects rects (frame t) s in
    let s2 :=
      if negb (gameOver s1)
      then maybeAdvanceGameClock btns (tClock t) (tEnd t) (tStart t)
             (random t) s1
      else s1 in
    setPreviousFrame (Some (frame t)) s2.

Definition runRects (btns : list Button) (rects : list Rect)
    (ts : list Tick) (s : State) : State :=
  fold_left (fun st t => processFrameRects btns rects t st) ts s.

(** A grey image of [W] by [H] pixels with level [f x y] at column [x] of
    row [y]. *)
Definition paint (W H : Z) (f : Z -> Z -> Z) : ImageData :=
  mkImage W H
    (snd (Z.iter (W * H)
            (fun st =>
               let p := fst st - 1 in
               let v := f (p mod W) (p / W) in
               (p, v :: v :: v :: 255 :: snd st))
            (W * H, []))).

Definition inRect (x0 y0 w h x y : Z) : bool :=
  (x0 <=? x) && (x <? x0 + w) && (y0 <=? y) && (y <? y0 + h).

(** Frames of 200 by 196 pixels: a dark scene, a hand over the top button,
    and hands over the top and the left button. *)
Definition still : ImageData := paint 200 196 (fun _ _ => 0).

Definition handTop : ImageData :=
  paint 200 196 (fun x y => if inRect 58 16 84 84 x y then 100 else 0).

Definition handTopLeft : ImageData :=
  paint 200 196
    (fun x y =>
       if inRect 58 16 84 84 x y || inRect 16 112 84 84 x y
       then 100 else 0).

(** The rectangles of [buttons] on a canvas 200 pixels wide. *)
Definition rects200 : list Rect :=
  [mkRect 58 16 84 84; mkRect 16 112 84 84; mkRect 100 112 84 84].

(** Three rounds in front of a still scene: frames at the two deadlines
    between rounds and at the three round ends. *)
Definition missedRounds : list Tick :=
  [tickAt still 16; tickAt still 2000; tickAt still 2500;
   tickAt still 4500; tickAt still 5000; tickAt still 7000].

(** * Double precision

    In the program the ratio and 0.15 are IEEE 754 doubles.  For the
    declared button size the test on correctly rounded doubles decides as
    the test on exact rationals does, for every possible count.  The
    rounding [fl] of the deadlines and of the product that picks the
    target is compared with the addition and the multiplication of
    doubles on sample readings. *)

Module Double.

Definition prec : Z := 53.
Definition emax : Z := 1024.

(** The double that holds an integer. *)
Definition ofZ (z : Z) : spec_float := binary_normalize prec emax z 0 false.

(** The double nearest to 0.15, the value of the literal. *)
Definition threshold : spec_float :=
  S754_finite false 5404319552844595 (-55).

(** [m / t > 0.15] on doubles. *)
Definition ratioTest (m t : Z) : bool :=
  SFltb threshold (SFdiv prec emax (ofZ m) (ofZ t)).

(** The test on rationals, as the model has it. *)
Definition exactTest (m t : Z) : bool :=
  Qltb THRESHOLD (inject_Z m / inject_Z t)%Q.

(** The two tests agree on the [n] counts from [m] on. *)
Fixpoint agreeFrom (t : Z) (n : nat) (m : Z) : bool :=
  match n with
  | O => true
  | S n' => Bool.eqb (ratioTest m t) (exactTest m t) && agreeFrom t n' (m + 1)
  end.

Definition agreeUpTo (t : Z) : bool := agreeFrom t (S (Z.to_nat t)) 0.

(** The value of a finite double. *)
Definition toQ (f : spec_float) : Q :=
  match f with
  | S754_finite sign m e =>
      Qred ((if sign then -1 else 1) * inject_Z (Zpos m) * 2 ^ e)%Q
  | _ => 0%Q
  end.

(** The double nearest to [a / b]. *)
Definition ofRatio (a b : Z) : spec_float := SFdiv prec emax (ofZ a) (ofZ b).

(** [fl] of the exact sum is the sum of the doubles. *)
Definition addAgrees (x y : spec_float) : bool :=
  Qeq_bool (fl (toQ x + toQ y)) (toQ (SFadd prec emax x y)).

(** [fl] of the exact product is the product of the doubles. *)
Definition mulAgrees (x y : spec_float) : bool :=
  Qeq_bool (fl (toQ x * toQ y)) (toQ (SFmul prec emax x y)).

(** Readings of the clock in milliseconds, and random numbers. *)
Definition sampleClock : list spec_float :=
  [ofZ 0; ofRatio 1 10; ofRatio 7 10; ofRatio 50 3; ofRatio 12345 10;
   ofZ 2000; ofRatio 70007 7; ofRatio 86400000 1; ofRatio 123456789 1000].

Definition sampleRandom : list spec_float :=
  [ofZ 0; ofRatio 1 3; ofRatio 1 2; ofRatio 2 3;
   S754_finite false 6004799503160661 (-53);
   S754_finite false 9007199254740991 (-53)].

End Double.

(** * Drawing

    What the drawing functions decide from the game variables; the canvas
    calls themselves are left out. *)

(** [buttons[k]] for an integer [k]: [undefined] outside the array. *)
Definition buttonAt (btns : list Button) (k : Z) : option Button :=
  if k <? 0 then None else nth_error btns (Z.to_nat k).

Inductive KnightImage := knightTop | knightLeft | knightRight | knightNeutral.

(** [getKnightPose]; [None] stands for the TypeError of reading [side] of
    [undefined]. *)
Definition getKnightPose (btns : list Button) (s : State)
    : option KnightImage :=
  if negb (roundActive s) then Some knightNeutral
  else
    match buttonAt btns (targetIndex s) with
    | Some btn =>
        Some match side btn with
             | sideTop => knightTop
             | sideLeft => knightLeft
             | sideRight => knightRight
             end
    | None => None
    end.

(** The rectangle [drawKnightBackground] draws the image into, as
    [(x, y, w, h)], on a canvas of [cw] by [ch]. *)
Definition knightRect (cw ch : Z) : Q * Q * Q * Q :=
  let scale := (13 # 10)%Q in
  let w := (inject_Z cw * scale)%Q in
  let h := (inject_Z ch * scale)%Q in
  (((inject_Z cw - w) / 2)%Q, ((inject_Z ch - h) / 2)%Q, w, h).

Inductive Border := BTN_BORDER | borderBright.

(** The border [drawVirtualButtons] chooses for button [idx]. *)
Definition buttonBorder (s : State) (idx : Z) : Border :=
  if negb (gameOver s) && roundActive s && (idx =? targetIndex s)
  then borderBright else BTN_BORDER.

(** Whether [drawVirtualButtons] lays the selection shade over [idx]. *)
Definition buttonSelected (s : State) (idx : Z) : bool :=
  roundActive s && eqOpt (lastActivatedIndex s) idx.

Record ButtonLook := mkLook {
  look_fill : Fill;
  look_border : Border;
  look_selected : bool
}.

Fixpoint drawButtonsFrom (now : Q) (s : State) (btns : list Button)
    (idx : Z) : list ButtonLook :=
  match btns with
  | [] => []
  | _ :: rest =>
      mkLook (buttonFill now s idx) (buttonBorder s idx)
        (buttonSelected s idx)
        :: drawButtonsFrom now s rest (idx + 1)
  end.

(** [drawVirtualButtons]: the look of each button, in order. *)
Definition drawVirtualButtons (btns : list Button) (now : Q) (s : State)
    : list ButtonLook :=
  drawButtonsFrom now s btns 0.

Record Heart := mkHeart {
  heart_x : Z;
  heart_y : Z;
  heart_size : Z;
  heart_filled : bool
}.

(** The loop [for (i = 0; i < MAX_HP; i++)] of [drawHearts], with [n]
    hearts left to draw from [i] on. *)
Fixpoint drawHeartsFrom (s : State) (n : nat) (i : Z) : list Heart :=
  match n with
  | O => []
  | S n' =>
      mkHeart (12 + i * (16 + 10)) 12 16 (i <? hp s)
        :: drawHeartsFrom s n' (i + 1)
  end.

(** [drawHearts]: the calls of [drawHeart], in order. *)
Definition drawHearts (s : State) : list Heart :=
  drawHeartsFrom s (Z.to_nat MAX_HP) 0.

(** What one call of [processFrame] puts on the canvas.  The knight is
    drawn before the hit test, the rest after it and before the clock. *)
Record Scene := mkScene {
  scene_knight : option KnightImage;
  scene_buttons : list ButtonLook;
  scene_triangle : bool;
  scene_hearts : list Heart;
  scene_gameOver : bool
}.

Definition drawScene (btns : list Button) (t : Tick) (s : State) : Scene :=
  let s1 := detectStep btns (frame t) s in
  mkScene (getKnightPose btns s)
    (drawVirtualButtons btns (tDraw t) s1)
    (negb (gameOver s1) && roundActive s1)
    (drawHearts s1)
    (gameOver s1).

(** The number of filled hearts. *)
Definition filledHearts (hs : list Heart) : Z :=
  Z.of_nat (length (filter heart_filled hs)).

(** * Sessions

    The states a session can be in: those reached from [startCamera] by
    processing frames. *)

(** The random numbers of a session are doubles in [0, 1), as
    [Math.random] promises; the largest double below 1 is [1 - 2 ^ -53]. *)
Definition unitRandom (r : Q) : Prop :=
  (0 <= r)%Q /\ (r <= 1 - unitRoundoff)%Q.

(** The flash fields fit the round: cleared while a round is active, and
    after it set to the target and to the colour of its outcome. *)
Definition flashFits (s : State) : Prop :=
  if roundActive s
  then gameOver s = false /\ hitRecorded s = false /\
       flashingTarget s = None /\ flashColor s = None
  else flashingTarget s = Some (targetIndex s) /\
       flashColor s = Some (if hitRecorded s then success else fail).

(** An index into [btns]. *)
Definition validIndex (btns : list Button) (k : Z) : Prop :=
  0 <= k < Z.of_nat (length btns).

Definition indicesOk (btns : list Button) (s : State) : Prop :=
  validIndex btns (targetIndex s) /\
  (forall k, lastActivatedIndex s = Some k -> validIndex btns k).

(** * Layout of the buttons *)

(** A button whose left edge falls on a whole or a half pixel and whose
    top edge falls on a whole pixel. *)
Definition halfAligned (cw : Z) (btn : Button) : Prop :=
  exists X2 Y : Z,
    (btn_x btn cw == inject_Z X2 / 2)%Q /\ (btn_y btn cw == inject_Z Y)%Q.

(** The sides of the rectangle of a button on a canvas of width [cw]. *)
Definition btnLeft (cw : Z) (btn : Button) : Q := btn_x btn cw.
Definition btnRight (cw : Z) (btn : Button) : Q :=
  (btn_x btn cw + inject_Z (btn_w btn))%Q.
Definition btnTop (cw : Z) (btn : Button) : Q := btn_y btn cw.
Definition btnBottom (cw : Z) (btn : Button) : Q :=
  (btn_y btn cw + inject_Z (btn_h btn))%Q.

(** The rectangle lies on a canvas of [cw] by [ch]. *)
Definition insideCanvas (cw ch : Z) (btn : Button) : Prop :=
  (0 <= btnLeft cw btn)%Q /\ (btnRight cw btn <= inject_Z cw)%Q /\
  (0 <= btnTop cw btn)%Q /\ (btnBottom cw btn <= inject_Z ch)%Q.

(** The rectangles of two buttons share no pixel. *)
Definition apart (cw : Z) (a b : Button) : Prop :=
  (btnRight cw a <= btnLeft cw b)%Q \/ (btnRight cw b <= btnLeft cw a)%Q \/
  (btnBottom cw a <= btnTop cw b)%Q \/ (btnBottom cw b <= btnTop cw a)%Q.

(** Division by two as a product, for the linear solver. *)
Ltac halve := unfold Qdiv; try change (/ 2)%Q with (1 # 2)%Q.

(** * Lemmas on the functions *)

(** ** Comparisons of numbers *)

Lemma Qltb_lt (a b : Q) : Qltb a b = true <-> (a < b)%Q.
Proof.
  unfold Qltb. rewrite negb_true_iff.
  split; intro H.
  - apply Qnot_le_lt. intro Hle. apply Qle_bool_iff in Hle. congruence.
  - destruct (Qle_bool b a) eqn:E; [|reflexivity].
    apply Qle_bool_iff in E. exfalso. apply (Qlt_not_le _ _ H E).
Qed.

Lemma Qltb_ge (a b : Q) : Qltb a b = false <-> (b <= a)%Q.
Proof.
  unfold Qltb. rewrite negb_false_iff. apply Qle_bool_iff.
Qed.

Lemma Qgeb_ge (a b : Q) : Qgeb a b = true <-> (b <= a)%Q.
Proof. unfold Qgeb. apply Qle_bool_iff. Qed.

Lemma Qgeb_lt (a b : Q) : Qgeb a b = false <-> (a < b)%Q.
Proof.
  unfold Qgeb. split; intro H.
  - apply Qnot_le_lt. intro Hle. apply Qle_bool_iff in Hle. congruence.
  - destruct (Qle_bool b a) eqn:E; [|reflexivity].
    apply Qle_bool_iff in E. exfalso. apply (Qlt_not_le _ _ H E).
Qed.

(** ** Rounding *)

Lemma pow2_pos (k : Z) : (0 < 2 ^ k)%Q.
Proof. apply Qpower_0_lt. reflexivity. Qed.

Lemma Qmake_times_den (a : Z) (d : positive) :
  ((a # d) * inject_Z (Zpos d) == inject_Z a)%Q.
Proof.
  unfold Qeq, Qmult, inject_Z. cbn [Qnum Qden]. rewrite Pos.mul_1_r. lia.
Qed.

Lemma binade_le (x : Q) : (0 < x)%Q -> (2 ^ binade x <= x)%Q.
Proof.
  intro Hx. unfold binade. cbv zeta.
  destruct (Qle_bool _ x) eqn:E; [apply Qle_bool_iff; exact E|].
  clear E. destruct x as [a d]. cbn [Qnum Qden].
  assert (Ha : 0 < a). { unfold Qlt in Hx. cbn in Hx. lia. }
  set (la := Z.log2 a). set (ld := Z.log2 (Zpos d)).
  assert (Hla : 0 <= la) by apply Z.log2_nonneg.
  assert (Hld : 0 <= ld) by apply Z.log2_nonneg.
  destruct (Z.log2_spec a Ha) as [La _]. fold la in La.
  destruct (Z.log2_spec (Zpos d) ltac:(lia)) as [_ Ld]. fold ld in Ld.
  replace (la - ld - 1) with (la - (ld + 1)) by lia.
  rewrite Qpower_minus by discriminate.
  rewrite <- !(Zpower_Qpower 2) by lia.
  apply Qle_shift_div_r.
  - change 0%Q with (inject_Z 0). rewrite <- Zlt_Qlt.
    apply Z.pow_pos_nonneg; lia.
  - apply Qle_trans with (inject_Z a); [rewrite <- Zle_Qle; exact La|].
    rewrite <- (Qmake_times_den a d).
    apply Qmult_le_l; [exact Hx|].
    rewrite <- Zle_Qle. replace (Z.succ ld) with (ld + 1) in Ld by lia. lia.
Qed.

Lemma binade_lt (x : Q) : (0 < x)%Q -> (x < 2 ^ (binade x + 1))%Q.
Proof.
  intro Hx. unfold binade. cbv zeta.
  destruct (Qle_bool _ x) eqn:E.
  - clear E. destruct x as [a d]. cbn [Qnum Qden].
    assert (Ha : 0 < a). { unfold Qlt in Hx. cbn in Hx. lia. }
    set (la := Z.log2 a). set (ld := Z.log2 (Zpos d)).
    assert (Hla : 0 <= la) by apply Z.log2_nonneg.
    assert (Hld : 0 <= ld) by apply Z.log2_nonneg.
    destruct (Z.log2_spec a Ha) as [_ La]. fold la in La.
    destruct (Z.log2_spec (Zpos d) ltac:(lia)) as [Ld _]. fold ld in Ld.
    replace (la - ld + 1) with (la + 1 - ld) by lia.
    rewrite Qpower_minus by discriminate.
    rewrite <- !(Zpower_Qpower 2) by lia.
    apply Qlt_shift_div_l.
    + change 0%Q with (inject_Z 0). rewrite <- Zlt_Qlt.
      apply Z.pow_pos_nonneg; lia.
    + apply Qle_lt_trans with (inject_Z a).
      * rewrite <- (Qmake_times_den a d).
        apply Qmult_le_l; [exact Hx|]. rewrite <- Zle_Qle. exact Ld.
      * rewrite <- Zlt_Qlt. replace (Z.succ la) with (la + 1) in La by lia.
        exact La.
  - replace (Z.log2 (Qnum x) - Z.log2 (Zpos (Qden x)) - 1 + 1)
      with (Z.log2 (Qnum x) - Z.log2 (Zpos (Qden x))) by lia.
    apply Qnot_le_lt. intro H. apply Qle_bool_iff in H.
    rewrite H in E. discriminate.
Qed.

Lemma roundHalfEven_near (m : Q) :
  (m - (1 # 2) <= inject_Z (roundHalfEven m))%Q /\
  (inject_Z (roundHalfEven m) <= m + (1 # 2))%Q.
Proof.
  unfold roundHalfEven. cbv zeta.
  pose proof (Qfloor_le m) as Hl. pose proof (Qlt_floor m) as Hu.
  rewrite inject_Z_plus in Hu. change (inject_Z 1) with 1%Q in Hu.
  destruct (m - inject_Z (Qfloor m) ?= 1 # 2)%Q eqn:C.
  - apply Qeq_alt in C.
    destruct (Z.even (Qfloor m)); rewrite ?inject_Z_plus;
      change (inject_Z 1) with 1%Q; split; lra.
  - apply Qlt_alt in C. split; lra.
  - apply Qgt_alt in C. rewrite inject_Z_plus. change (inject_Z 1) with 1%Q.
    split; lra.
Qed.

Lemma roundHalfEven_floor (m : Q) :
  roundHalfEven m = Qfloor m \/ roundHalfEven m = Qfloor m + 1.
Proof.
  unfold roundHalfEven. cbv zeta.
  destruct (m - inject_Z (Qfloor m) ?= 1 # 2)%Q; auto.
  destruct (Z.even (Qfloor m)); auto.
Qed.

(** The significand of a rounded number has 53 bits. *)
Lemma flPos_significand (x : Q) :
  (0 < x)%Q ->
  4503599627370496 <= roundHalfEven (x / 2 ^ (binade x - 52))
                   <= 9007199254740992.
Proof.
  intro Hx.
  pose proof (binade_le x Hx) as Hl. pose proof (binade_lt x Hx) as Hu.
  set (e := binade x) in *.
  set (q := (2 ^ (e - 52))%Q).
  assert (Hq : (0 < q)%Q) by apply pow2_pos.
  assert (Hqe : (2 ^ e == q * 4503599627370496)%Q).
  { unfold q. replace (e - 52) with (e + -52) by lia.
    rewrite Qpower_plus by discriminate.
    change (2 ^ (-52))%Q with (1 # 4503599627370496)%Q.
    rewrite <- Qmult_assoc.
    setoid_replace ((1 # 4503599627370496) * 4503599627370496)%Q with 1%Q
      by reflexivity.
    ring. }
  assert (Hqe1 : (2 ^ (e + 1) == q * 9007199254740992)%Q).
  { rewrite Qpower_plus by discriminate. rewrite Hqe.
    change (2 ^ 1)%Q with 2%Q. ring. }
  assert (Hm : (x / q * q == x)%Q).
  { field. intro E. rewrite E in Hq. inversion Hq. }
  assert (L : (4503599627370496 <= x / q)%Q).
  { apply Qmult_le_r with q; [exact Hq|]. rewrite Hm.
    rewrite Qmult_comm, <- Hqe. exact Hl. }
  assert (U : (x / q < 9007199254740992)%Q).
  { apply Qmult_lt_r with q; [exact Hq|]. rewrite Hm.
    rewrite (Qmult_comm 9007199254740992), <- Hqe1. exact Hu. }
  assert (FL : 4503599627370496 <= Qfloor (x / q)).
  { change 4503599627370496 with (Qfloor (inject_Z 4503599627370496)).
    apply Qfloor_resp_le. exact L. }
  assert (FU : Qfloor (x / q) < 9007199254740992).
  { rewrite Zlt_Qlt. eapply Qle_lt_trans; [apply Qfloor_le|exact U]. }
  fold q. destruct (roundHalfEven_floor (x / q)) as [-> | ->]; lia.
Qed.

Lemma flPos_error (x : Q) :
  (0 < x)%Q ->
  (x - x * unitRoundoff <= flPos x)%Q /\
  (flPos x <= x + x * unitRoundoff)%Q.
Proof.
  intro Hx. unfold flPos. cbv zeta.
  set (e := binade x).
  pose proof (binade_le x Hx) as He. fold e in He.
  set (q := (2 ^ (e - 52))%Q).
  assert (Hq : (0 < q)%Q) by apply pow2_pos.
  assert (Hqe : (q == 2 ^ e * (1 # 4503599627370496))%Q).
  { unfold q. replace (e - 52) with (e + -52) by lia.
    rewrite Qpower_plus by discriminate. reflexivity. }
  destruct (roundHalfEven_near (x / q)) as [Hl Hu].
  set (r := inject_Z (roundHalfEven (x / q))) in *.
  assert (Hm : (x / q * q == x)%Q).
  { field. intro E. rewrite E in Hq. inversion Hq. }
  assert (Hh : (q * (1 # 2) <= x * unitRoundoff)%Q).
  { rewrite Hqe. unfold unitRoundoff.
    setoid_replace (2 ^ e * (1 # 4503599627370496) * (1 # 2))%Q
      with (2 ^ e * (1 # 9007199254740992))%Q by (ring_simplify; reflexivity).
    apply Qmult_le_r; [reflexivity|exact He]. }
  assert (L1 : ((x / q - (1 # 2)) * q <= r * q)%Q)
    by (apply Qmult_le_r; assumption).
  assert (L2 : (r * q <= (x / q + (1 # 2)) * q)%Q)
    by (apply Qmult_le_r; assumption).
  setoid_replace ((x / q - (1 # 2)) * q)%Q
    with (x / q * q - q * (1 # 2))%Q in L1 by ring.
  setoid_replace ((x / q + (1 # 2)) * q)%Q
    with (x / q * q + q * (1 # 2))%Q in L2 by ring.
  rewrite Hm in L1, L2. split; lra.
Qed.

(** The relative error of a rounded number that is not negative. *)
Lemma fl_error (x : Q) :
  (0 <= x)%Q ->
  (x - x * unitRoundoff <= fl x)%Q /\ (fl x <= x + x * unitRoundoff)%Q.
Proof.
  intro Hx. unfold fl. rewrite Qred_correct.
  destruct x as [a d]. cbn [Qnum].
  destruct a as [|a|a].
  - assert (E : (0 # d == 0)%Q) by reflexivity. rewrite E. split; lra.
  - apply flPos_error. reflexivity.
  - exfalso. unfold Qle in Hx. cbn in Hx. lia.
Qed.

(** A deadline set [ms] milliseconds ahead of a reading of the clock lies
    after the reading, less than a millisecond off the exact sum. *)
Lemma fl_deadline (t ms : Q) :
  clockRange t -> (1 <= ms)%Q -> (ms <= 4096)%Q ->
  (t + ms - 1 < fl (t + ms))%Q /\ (fl (t + ms) < t + ms + 1)%Q /\
  (t < fl (t + ms))%Q.
Proof.
  intros [H0 H1] Hm Hm'.
  destruct (fl_error (t + ms)) as [Hl Hu]; [lra|].
  unfold unitRoundoff in *.
  assert (Hx : ((t + ms) * (1 # 9007199254740992) < 1)%Q) by lra.
  repeat split; lra.
Qed.

(** ** The frame differ *)

Lemma detectLoop_length_le (n : nat) : forall prev curr : list Z,
  (length curr <= n)%nat -> length (detectLoop prev curr) = length curr.
Proof.
  induction n as [|n IH]; intros prev curr Hn.
  - destruct curr; [reflexivity | cbn in Hn; lia].
  - destruct curr as [|a [|b [|c [|d rest]]]]; try reflexivity.
    cbn [detectLoop length]. rewrite IH; [reflexivity|].
    cbn [length] in Hn. lia.
Qed.

Lemma detectLoop_length (prev curr : list Z) :
  length (detectLoop prev curr) = length curr.
Proof. apply (detectLoop_length_le (length curr)). lia. Qed.

Lemma nth_error_at (l : list Z) (k : nat) :
  (k < length l)%nat -> nth_error l k = Some (nth k l 0).
Proof. intro H. apply nth_error_nth'. exact H. Qed.

Lemma pixelDelta_skipn (prev curr : list Z) (k : nat) :
  (k + 2 < length prev)%nat -> (k + 2 < length curr)%nat ->
  pixelDelta (skipn k prev) (skipn k curr) =
  Some (Z.abs (nth k curr 0 - nth k prev 0)
        + Z.abs (nth (k + 1) curr 0 - nth (k + 1) prev 0)
        + Z.abs (nth (k + 2) curr 0 - nth (k + 2) prev 0)).
Proof.
  intros Hp Hc. unfold pixelDelta.
  rewrite !nth_error_skipn.
  rewrite !nth_error_at by lia.
  rewrite Nat.add_0_r. reflexivity.
Qed.

(** The entry of the mask at offset [4 * p + c] is decided by the
    iteration for pixel [p]. *)
Lemma detectLoop_nth (p : nat) : forall (prev curr : list Z) (c : nat),
  (4 * p + 3 < length curr)%nat -> (c < 4)%nat ->
  nth_error (detectLoop prev curr) (4 * p + c) =
  Some (if (c =? 3)%nat then 255
        else pixelMotion (skipn (4 * p) prev) (skipn (4 * p) curr)).
Proof.
  induction p as [|p IH]; intros prev curr c Hlen Hc.
  - destruct curr as [|a0 [|a1 [|a2 [|a3 rest]]]]; cbn [length] in Hlen;
      try lia.
    cbn [Nat.mul Nat.add skipn].
    destruct c as [|[|[|[|c]]]]; try lia; reflexivity.
  - destruct curr as [|a0 [|a1 [|a2 [|a3 rest]]]]; cbn [length] in Hlen;
      try lia.
    replace (4 * S p + c)%nat with (S (S (S (S (4 * p + c))))) by lia.
    cbn [detectLoop nth_error].
    rewrite IH by (cbn [length] in *; lia).
    replace (4 * S p)%nat with (4 * p + 4)%nat by lia.
    rewrite <- !skipn_skipn. reflexivity.
Qed.

(** The entry the loop writes for a pixel both frames have data for. *)
Lemma detectMotion_pixel (prev curr : ImageData) (p : nat) :
  (4 * p + 3 < length (data curr))%nat ->
  (4 * p + 3 < length (data prev))%nat ->
  nth_error (detectMotion prev curr) (4 * p) =
  Some (if 50 <? sumAbs prev curr p then 255 else 0).
Proof.
  intros Hc Hv. unfold detectMotion.
  replace (4 * p)%nat with (4 * p + 0)%nat at 1 by lia.
  rewrite detectLoop_nth by lia. cbn [Nat.eqb].
  unfold pixelMotion. rewrite pixelDelta_skipn by lia.
  unfold sumAbs, channel, numGt.
  rewrite !Nat.add_0_r. reflexivity.
Qed.

Lemma maskMotion_pixel (prev curr : ImageData) (p : nat) :
  (4 * p + 3 < length (data curr))%nat ->
  (4 * p + 3 < length (data prev))%nat ->
  maskMotion (detectMotion prev curr) p = (50 <? sumAbs prev curr p).
Proof.
  intros Hc Hv. unfold maskMotion.
  rewrite (detectMotion_pixel prev curr p Hc Hv).
  destruct (50 <? sumAbs prev curr p); reflexivity.
Qed.

(** The entry the loop writes for a pixel the previous frame has no data
    for. *)
Lemma maskMotion_no_data (prev curr : ImageData) (p : nat) :
  (4 * p + 3 < length (data curr))%nat ->
  (length (data prev) <= 4 * p)%nat ->
  maskMotion (detectMotion prev curr) p = false.
Proof.
  intros Hc Hp. unfold maskMotion, detectMotion.
  replace (4 * p)%nat with (4 * p + 0)%nat by lia.
  rewrite detectLoop_nth by lia. cbn [Nat.eqb].
  unfold pixelMotion, pixelDelta.
  rewrite (skipn_all2 (data prev)) by lia.
  cbn [nth_error].
  destruct (skipn (4 * p) (data curr)) as [|? [|? [|? ?]]]; reflexivity.
Qed.

(** ** Region activation *)

Section RegionActivation.

Variable cw : Z.
Variable diff : list Z.

Lemma forEachButton_inactive (btns : list Button) :
  forall idx frameLast,
  forEachButton cw diff false btns idx frameLast = frameLast.
Proof.
  induction btns as [|b rest IH]; intros idx fl; cbn [forEachButton].
  - reflexivity.
  - rewrite IH. reflexivity.
Qed.

Lemma forEachButton_active (btns : list Button) :
  forall idx frameLast,
  forEachButton cw diff true btns idx frameLast =
  match lastExceeding cw diff btns idx with
  | Some r => Some r
  | None => frameLast
  end.
Proof.
  induction btns as [|b rest IH]; intros idx fl;
    cbn [forEachButton lastExceeding].
  - reflexivity.
  - rewrite IH. unfold checkButton. cbn [andb]. fold (exceeds cw diff b).
    destruct (lastExceeding cw diff rest (idx + 1)); [reflexivity|].
    destruct (exceeds cw diff b); reflexivity.
Qed.

Lemma lastExceeding_none (btns : list Button) : forall idx,
  lastExceeding cw diff btns idx = None <->
  (forall b, In b btns -> exceeds cw diff b = false).
Proof.
  induction btns as [|b rest IH]; intro idx; cbn [lastExceeding].
  - split; [intros _ b []|reflexivity].
  - specialize (IH (idx + 1)).
    destruct (lastExceeding cw diff rest (idx + 1)) as [r|].
    + split; [discriminate|]. intro H.
      destruct IH as [_ IH]. discriminate IH.
      intros b' Hb'. apply H. right. exact Hb'.
    + destruct IH as [IH _]. specialize (IH eq_refl).
      destruct (exceeds cw diff b) eqn:E.
      * split; [discriminate|]. intro H.
        rewrite (H b (or_introl eq_refl)) in E. discriminate.
      * split; [|reflexivity]. intros _ b' [<-|Hb']; auto.
Qed.

(** The winner passes the test and no button declared after it does. *)
Lemma lastExceeding_some (btns : list Button) : forall idx r,
  lastExceeding cw diff btns idx = Some r ->
  exists k b,
    r = idx + Z.of_nat k /\ nth_error btns k = Some b /\
    exceeds cw diff b = true /\
    (forall m b', (k < m)%nat -> nth_error btns m = Some b' ->
                  exceeds cw diff b' = false).
Proof.
  induction btns as [|b rest IH]; intros idx r; cbn [lastExceeding].
  - discriminate.
  - destruct (lastExceeding cw diff rest (idx + 1)) as [r'|] eqn:E.
    + intros [= <-]. destruct (IH _ _ E) as (k & b' & Hr & Hn & He & Hl).
      exists (S k), b'. repeat split; auto.
      * lia.
      * intros m bm Hm Hnm. destruct m as [|m]; [lia|].
        apply (Hl m bm); [lia|exact Hnm].
    + destruct (exceeds cw diff b) eqn:Eb; [|discriminate].
      intros [= <-]. exists 0%nat, b. repeat split; auto.
      * lia.
      * intros m bm Hm Hnm. destruct m as [|m]; [lia|].
        apply (proj1 (lastExceeding_none rest (idx + 1)) E).
        cbn [nth_error] in Hnm. apply (nth_error_In _ _ Hnm).
Qed.

(** A button that passes the test is the winner or precedes it. *)
Lemma lastExceeding_ge (btns : list Button) : forall idx k b,
  nth_error btns k = Some b -> exceeds cw diff b = true ->
  exists r, lastExceeding cw diff btns idx = Some r /\ idx + Z.of_nat k <= r.
Proof.
  induction btns as [|b0 rest IH]; intros idx k b Hk Hb.
  - destruct k; discriminate.
  - cbn [lastExceeding]. destruct k as [|k].
    + injection Hk as ->.
      destruct (lastExceeding cw diff rest (idx + 1)) as [r|] eqn:E.
      * exists r. split; [reflexivity|].
        destruct (lastExceeding_some _ _ _ E) as (k' & _ & -> & _). lia.
      * rewrite Hb. exists idx. split; [reflexivity|lia].
    + destruct (IH (idx + 1) k b Hk Hb) as (r & -> & Hr).
      exists r. split; [reflexivity|lia].
Qed.

Lemma checkVirtualButtons_last (btns : list Button) (s : State) :
  roundActive s = true ->
  lastActivatedIndex (checkVirtualButtons btns cw diff s) =
  match lastExceeding cw diff btns 0 with
  | Some r => Some r
  | None => lastActivatedIndex s
  end.
Proof.
  intro Ha. unfold checkVirtualButtons. rewrite Ha.
  rewrite forEachButton_active.
  destruct (lastExceeding cw diff btns 0); reflexivity.
Qed.

Lemma checkVirtualButtons_quiet (btns : list Button) (s : State) :
  (forall b, In b btns -> exceeds cw diff b = false) ->
  checkVirtualButtons btns cw diff s = s.
Proof.
  intro H. unfold checkVirtualButtons.
  destruct (roundActive s).
  - rewrite forEachButton_active.
    rewrite (proj2 (lastExceeding_none btns 0) H). reflexivity.
  - rewrite forEachButton_inactive. reflexivity.
Qed.

(** The hit test changes nothing but [lastActivatedIndex]. *)
Lemma checkVirtualButtons_frame (btns : list Button) (s : State) :
  exists v, checkVirtualButtons btns cw diff s = setLastActivated v s.
Proof.
  unfold checkVirtualButtons.
  destruct (forEachButton cw diff (roundActive s) btns 0 None) as [k|].
  - exists (Some k). reflexivity.
  - exists (lastActivatedIndex s). destruct s. reflexivity.
Qed.

End RegionActivation.

(** ** The round clock and the lives counter *)

Section RoundClock.

Variable btns : list Button.

Lemma detectStep_frame (cur : ImageData) (s : State) :
  exists v, detectStep btns cur s = setLastActivated v s.
Proof.
  unfold detectStep.
  destruct (previousFrame s) as [prev|].
  - destruct (gameOver s); cbn [negb].
    + exists (lastActivatedIndex s). destruct s. reflexivity.
    + apply checkVirtualButtons_frame.
  - exists (lastActivatedIndex s). destruct s. reflexivity.
Qed.

Lemma detectStep_gameOver (cur : ImageData) (s : State) :
  gameOver s = true -> detectStep btns cur s = s.
Proof.
  intro H. unfold detectStep. rewrite H.
  destruct (previousFrame s); reflexivity.
Qed.

Lemma startRound_hp (now rnd : Q) (s : State) :
  hp (startRound btns now rnd s) = hp s /\
  gameOver (startRound btns now rnd s) = gameOver s.
Proof. unfold startRound. destruct (gameOver s) eqn:E; auto. Qed.

Lemma endRound_hp_le (now : Q) (s : State) :
  hp (endRound now s) <= hp s.
Proof. unfold endRound. cbn [hp]. destruct (isHit s); lia. Qed.

Lemma endRound_livesOk (now : Q) (s : State) :
  gameOver s = false -> livesOk s -> livesOk (endRound now s).
Proof.
  intros Hg [[_ Hhp]|[Hg' _]]; [|congruence].
  unfold livesOk, endRound, MAX_HP in *. cbn [hp gameOver].
  rewrite Hg.
  destruct (isHit s).
  - left. split; [reflexivity|lia].
  - destruct (hp s - 1 =? 0) eqn:E.
    + right. split; [reflexivity|]. apply Z.eqb_eq. exact E.
    + left. split; [reflexivity|]. apply Z.eqb_neq in E. lia.
Qed.

Lemma startRound_livesOk (now rnd : Q) (s : State) :
  livesOk s -> livesOk (startRound btns now rnd s).
Proof.
  unfold livesOk. destruct (startRound_hp now rnd s) as [-> ->]. auto.
Qed.

Lemma maybeAdvanceGameClock_cases (now tE tS rnd : Q) (s : State) :
  let s' := maybeAdvanceGameClock btns now tE tS rnd s in
  s' = s \/ s' = endRound tE s \/ s' = startRound btns tS rnd s \/
  s' = startRound btns tS rnd (endRound tE s).
Proof.
  cbv zeta. unfold maybeAdvanceGameClock.
  destruct (negb (gameOver s) && roundActive s
            && Qgeb now (roundEndsAt s));
    match goal with
    | |- context [if ?c then _ else _] => destruct c
    end; auto.
Qed.

Lemma maybeAdvanceGameClock_livesOk (now tE tS rnd : Q) (s : State) :
  gameOver s = false -> livesOk s ->
  livesOk (maybeAdvanceGameClock btns now tE tS rnd s).
Proof.
  intros Hg Hl.
  destruct (maybeAdvanceGameClock_cases now tE tS rnd s)
    as [-> | [-> | [-> | ->]]];
    auto using endRound_livesOk, startRound_livesOk.
Qed.

Lemma maybeAdvanceGameClock_hp_le (now tE tS rnd : Q) (s : State) :
  hp (maybeAdvanceGameClock btns now tE tS rnd s) <= hp s.
Proof.
  destruct (maybeAdvanceGameClock_cases now tE tS rnd s)
    as [-> | [-> | [-> | ->]]].
  - lia.
  - apply endRound_hp_le.
  - destruct (startRound_hp tS rnd s) as [-> _]. lia.
  - destruct (startRound_hp tS rnd (endRound tE s)) as [-> _].
    apply endRound_hp_le.
Qed.

Lemma processFrame_livesOk (t : Tick) (s : State) :
  livesOk s -> livesOk (processFrame btns t s).
Proof.
  intro Hl. unfold processFrame.
  destruct (width (frame t) =? 0); [exact Hl|].
  destruct (detectStep_frame (frame t) s) as [v ->].
  change (gameOver (setLastActivated v s)) with (gameOver s).
  destruct (gameOver s) eqn:Hg; cbn [negb].
  - exact Hl.
  - assert (H : livesOk (maybeAdvanceGameClock btns (tClock t) (tEnd t)
                           (tStart t) (random t) (setLastActivated v s))).
    { apply maybeAdvanceGameClock_livesOk; [exact Hg|exact Hl]. }
    exact H.
Qed.

Lemma processFrame_hp_le (t : Tick) (s : State) :
  hp (processFrame btns t s) <= hp s.
Proof.
  unfold processFrame.
  destruct (width (frame t) =? 0); [lia|].
  destruct (detectStep_frame (frame t) s) as [v ->].
  change (gameOver (setLastActivated v s)) with (gameOver s).
  destruct (gameOver s); cbn [negb setPreviousFrame hp].
  - cbn. lia.
  - apply (maybeAdvanceGameClock_hp_le _ _ _ _ (setLastActivated v s)).
Qed.

(** After game over a frame changes nothing but the stored frame. *)
Lemma processFrame_gameOver (t : Tick) (s : State) :
  gameOver s = true -> gameView (processFrame btns t s) = gameView s.
Proof.
  intro Hg. unfold processFrame.
  destruct (width (frame t) =? 0); [reflexivity|].
  rewrite (detectStep_gameOver _ _ Hg). rewrite Hg. reflexivity.
Qed.

Lemma gameView_gameOver (s s' : State) :
  gameView s' = gameView s -> gameOver s' = gameOver s.
Proof.
  intro H. change (gameOver (gameView s') = gameOver (gameView s)).
  rewrite H. reflexivity.
Qed.

Lemma run_app (ts1 ts2 : list Tick) (s : State) :
  run btns (ts1 ++ ts2) s = run btns ts2 (run btns ts1 s).
Proof. unfold run. apply fold_left_app. Qed.

Lemma run_livesOk (ts : list Tick) : forall s,
  livesOk s -> livesOk (run btns ts s).
Proof.
  induction ts as [|t ts IH]; intros s Hl; [exact Hl|].
  cbn [run fold_left]. apply IH. apply processFrame_livesOk. exact Hl.
Qed.

Lemma run_hp_le (ts : list Tick) : forall s, hp (run btns ts s) <= hp s.
Proof.
  induction ts as [|t ts IH]; intro s; [cbn; lia|].
  cbn [run fold_left]. etransitivity; [apply IH|apply processFrame_hp_le].
Qed.

Lemma run_gameOver (ts : list Tick) : forall s,
  gameOver s = true -> gameView (run btns ts s) = gameView s.
Proof.
  induction ts as [|t ts IH]; intros s Hg; [reflexivity|].
  cbn [run fold_left].
  pose proof (processFrame_gameOver t s Hg) as Hv.
  fold (run btns ts (processFrame btns t s)).
  rewrite IH; [exact Hv|].
  rewrite (gameView_gameOver _ _ Hv). exact Hg.
Qed.

Lemma startCamera_livesOk (now rnd : Q) :
  livesOk (startCamera btns now rnd).
Proof.
  apply startRound_livesOk. left. split; [reflexivity|].
  unfold initialState, MAX_HP. cbn. lia.
Qed.

End RoundClock.

Section ClockSteps.

Variable btns : list Button.

Lemma clock_before_deadline (now tE tS rnd : Q) (s : State) :
  roundActive s = true -> (now < roundEndsAt s)%Q ->
  maybeAdvanceGameClock btns now tE tS rnd s = s.
Proof.
  intros Ha Hlt. unfold maybeAdvanceGameClock.
  rewrite (proj2 (Qgeb_lt _ _) Hlt), Ha.
  destruct (gameOver s) eqn:Hg; cbn [negb andb];
    rewrite ?Hg, ?Ha; reflexivity.
Qed.

Lemma clock_at_deadline (now tE tS rnd : Q) (s : State) :
  gameOver s = false -> roundActive s = true ->
  (roundEndsAt s <= now)%Q -> (now <= tE)%Q -> clockRange tE ->
  maybeAdvanceGameClock btns now tE tS rnd s = endRound tE s.
Proof.
  intros Hg Ha Hd Hm Hr. unfold maybeAdvanceGameClock.
  rewrite Hg, Ha, (proj2 (Qgeb_ge _ _) Hd). cbn [negb andb].
  assert (Hf : Qgeb now (flashEndsAt (endRound tE s)) = false).
  { apply Qgeb_lt. cbn [endRound flashEndsAt].
    destruct (fl_deadline tE FLASH_MS Hr) as (_ & _ & H);
      [unfold FLASH_MS; lra|unfold FLASH_MS; lra|]. lra. }
  rewrite Hf, andb_false_r. reflexivity.
Qed.

Lemma clock_flash_wait (now tE tS rnd : Q) (s : State) :
  roundActive s = false -> (now < flashEndsAt s)%Q ->
  maybeAdvanceGameClock btns now tE tS rnd s = s.
Proof.
  intros Ha Hlt. unfold maybeAdvanceGameClock.
  rewrite Ha. rewrite !andb_false_r. cbn [andb].
  rewrite Ha, (proj2 (Qgeb_lt _ _) Hlt), andb_false_r. reflexivity.
Qed.

Lemma clock_flash_end (now tE tS rnd : Q) (s : State) :
  gameOver s = false -> roundActive s = false ->
  isSome (flashingTarget s) = true -> (flashEndsAt s <= now)%Q ->
  maybeAdvanceGameClock btns now tE tS rnd s = startRound btns tS rnd s.
Proof.
  intros Hg Ha Hf Hd. unfold maybeAdvanceGameClock.
  rewrite Hg, Ha. cbn [negb andb].
  rewrite Hg, Ha, Hf, (proj2 (Qgeb_ge _ _) Hd). reflexivity.
Qed.

Lemma phase_RoundActive (s : State) :
  phase s = RoundActive <-> gameOver s = false /\ roundActive s = true.
Proof.
  unfold phase.
  destruct (gameOver s), (roundActive s), (isSome (flashingTarget s));
    split; try discriminate; try tauto; intros [? ?]; discriminate.
Qed.

Lemma phase_GameOver (s : State) :
  phase s = GameOver <-> gameOver s = true.
Proof.
  unfold phase.
  destruct (gameOver s), (roundActive s), (isSome (flashingTarget s));
    split; try discriminate; tauto.
Qed.

Lemma phase_endRound (now : Q) (s : State) :
  gameOver s = false ->
  phase (endRound now s) =
  if negb (isHit s) && (hp s - 1 =? 0) then GameOver else Flash.
Proof.
  intro Hg. unfold phase, endRound.
  cbn [gameOver roundActive flashingTarget isSome]. rewrite Hg.
  destruct (isHit s); cbn [negb andb]; [reflexivity|].
  destruct (hp s - 1 =? 0); reflexivity.
Qed.

(** A frame before the deadline of an active round. *)
Lemma processFrame_before_deadline (t : Tick) (s : State) :
  gameOver s = false -> roundActive s = true ->
  (tClock t < roundEndsAt s)%Q ->
  processFrame btns t s =
  if width (frame t) =? 0 then s
  else setPreviousFrame (Some (frame t)) (detectStep btns (frame t) s).
Proof.
  intros Hg Ha Hlt. unfold processFrame.
  destruct (width (frame t) =? 0); [reflexivity|].
  destruct (detectStep_frame btns (frame t) s) as [v Hv]. rewrite Hv.
  change (gameOver (setLastActivated v s)) with (gameOver s).
  rewrite Hg. cbn [negb].
  rewrite clock_before_deadline; [reflexivity|exact Ha|exact Hlt].
Qed.

(** The frame on which the deadline of an active round has passed. *)
Lemma processFrame_at_deadline (t : Tick) (s : State) :
  gameOver s = false -> roundActive s = true ->
  width (frame t) <> 0 ->
  (roundEndsAt s <= tClock t)%Q -> (tClock t <= tEnd t)%Q ->
  clockRange (tEnd t) ->
  processFrame btns t s =
  setPreviousFrame (Some (frame t))
    (endRound (tEnd t) (detectStep btns (frame t) s)).
Proof.
  intros Hg Ha Hw Hd Hm Hr. unfold processFrame.
  rewrite (proj2 (Z.eqb_neq _ _) Hw).
  destruct (detectStep_frame btns (frame t) s) as [v Hv]. rewrite Hv.
  change (gameOver (setLastActivated v s)) with (gameOver s).
  rewrite Hg. cbn [negb].
  rewrite clock_at_deadline; auto.
Qed.

(** The frames of a round before its deadline leave the round running. *)
Lemma run_before_deadline (ts : list Tick) : forall s,
  gameOver s = false -> roundActive s = true ->
  Forall (fun u => (tClock u < roundEndsAt s)%Q) ts ->
  let s' := run btns ts s in
  gameOver s' = false /\ roundActive s' = true /\
  roundEndsAt s' = roundEndsAt s /\ hp s' = hp s /\
  targetIndex s' = targetIndex s.
Proof.
  induction ts as [|t ts IH]; intros s Hg Ha Hall; cbv zeta.
  - cbn. auto.
  - inversion Hall as [|u us Ht Hts]; subst.
    cbn [run fold_left]. fold (run btns ts (processFrame btns t s)).
    rewrite (processFrame_before_deadline t s Hg Ha Ht).
    destruct (width (frame t) =? 0); [apply IH; assumption|].
    destruct (detectStep_frame btns (frame t) s) as [v ->].
    apply (IH (setPreviousFrame (Some (frame t)) (setLastActivated v s)));
      assumption.
Qed.

End ClockSteps.

(** * Properties of the specification *)

(** ** Frame differ *)

(** C7.  For every pixel position of two frames of the same size,
    [detectMotion] marks the pixel as motion exactly when the sum of the
    absolute differences of its red, green and blue channels is strictly
    greater than 50: a sum of exactly 50 is not motion, a sum of 51 is. *)
Theorem detectMotion_threshold (prev curr : ImageData) (p : nat) :
  wellFormed prev -> wellFormed curr ->
  width prev = width curr -> height prev = height curr ->
  Z.of_nat p < width curr * height curr ->
  nth_error (detectMotion prev curr) (4 * p) =
    Some (if 50 <? sumAbs prev curr p then 255 else 0) /\
  (maskMotion (detectMotion prev curr) p = true <->
     50 < sumAbs prev curr p) /\
  (sumAbs prev curr p = 50 -> maskMotion (detectMotion prev curr) p = false) /\
  (sumAbs prev curr p = 51 -> maskMotion (detectMotion prev curr) p = true).
Proof.
  intros (_ & _ & Lp) (_ & _ & Lc) Hw Hh Hp.
  rewrite Hw, Hh in Lp.
  assert (Hc : (4 * p + 3 < length (data curr))%nat) by lia.
  assert (Hv : (4 * p + 3 < length (data prev))%nat) by lia.
  assert (E : nth_error (detectMotion prev curr) (4 * p) =
              Some (if 50 <? sumAbs prev curr p then 255 else 0)).
  { unfold detectMotion.
    replace (4 * p)%nat with (4 * p + 0)%nat at 1 by lia.
    rewrite detectLoop_nth by lia. cbn [Nat.eqb].
    unfold pixelMotion. rewrite pixelDelta_skipn by lia.
    unfold sumAbs, channel, numGt.
    rewrite !Nat.add_0_r. reflexivity. }
  split; [exact E|].
  unfold maskMotion. rewrite E.
  destruct (50 <? sumAbs prev curr p) eqn:T; cbn [numGt].
  - apply Z.ltb_lt in T. repeat split; try reflexivity; try lia.
  - apply Z.ltb_ge in T. repeat split; try reflexivity; try lia;
      try discriminate.
Qed.

Lemma detectMotion_threshold_witness :
  sumAbs sample_prev sample_curr 0 = 50 /\
  maskMotion (detectMotion sample_prev sample_curr) 0 = false.
Proof.
  split; [reflexivity|].
  apply (detectMotion_threshold sample_prev sample_curr 0);
    unfold wellFormed; cbn; try lia; reflexivity.
Defined.

(** C9, as stated, fails: for a one-pixel frame followed by a two-pixel
    frame the specified differ fails with a dimension mismatch, while
    [detectMotion] returns a mask, which marks the first pixel as motion
    and the second, for which the previous frame has no data, as still. *)
Lemma detectMotion_mismatch_counterexample :
  wellFormed narrow_frame /\ wellFormed wide_frame /\
  width narrow_frame <> width wide_frame /\
  specDiff narrow_frame wide_frame = DimensionMismatch /\
  detectMotion narrow_frame wide_frame = [255; 255; 255; 255; 0; 0; 0; 255] /\
  detectMotionResult narrow_frame wide_frame = Mask [true; false].
Proof.
  unfold wellFormed. cbn. repeat split; try lia; discriminate.
Qed.

(** C9, amended.  [detectMotion] checks no dimensions and never fails: for
    every pair of frames it returns an array as long as the data of the
    current frame.  It compares the pixels at the same offset of the two
    data arrays: a pixel both frames have data for is marked as motion
    exactly when its summed channel delta is greater than 50, a pixel for
    which the previous frame has no data is marked as no motion.  For
    frames of equal dimensions the result is the specified mask. *)
Theorem detectMotion_total (prev curr : ImageData) :
  detectMotionResult prev curr <> DimensionMismatch /\
  length (detectMotion prev curr) = length (data curr) /\
  (forall p : nat,
     (4 * p + 3 < length (data curr))%nat ->
     (4 * p + 3 < length (data prev))%nat ->
     maskMotion (detectMotion prev curr) p = (50 <? sumAbs prev curr p)) /\
  (forall p : nat,
     (4 * p + 3 < length (data curr))%nat ->
     (length (data prev) <= 4 * p)%nat ->
     maskMotion (detectMotion prev curr) p = false) /\
  (wellFormed prev -> wellFormed curr ->
   width prev = width curr -> height prev = height curr ->
   detectMotionResult prev curr = specDiff prev curr).
Proof.
  assert (Hlen : length (detectMotion prev curr) = length (data curr))
    by apply detectLoop_length.
  split; [discriminate|]. split; [exact Hlen|].
  split; [apply maskMotion_pixel|]. split; [apply maskMotion_no_data|].
  intros (_ & _ & Lp) (Hw0 & Hh0 & Lc) Hw Hh.
  unfold specDiff, detectMotionResult, motionPixels, specMask.
  rewrite Hw, Hh, !Z.eqb_refl. cbn [andb]. f_equal.
  rewrite Hw, Hh in Lp. rewrite Hlen.
  assert (Hn : (length (data curr) / 4)%nat
               = Z.to_nat (width curr * height curr)).
  { replace (length (data curr))
      with (Z.to_nat (width curr * height curr) * 4)%nat by lia.
    apply Nat.div_mul. discriminate. }
  rewrite Hn. apply map_ext_in. intros p Hp. apply in_seq in Hp.
  apply maskMotion_pixel; lia.
Qed.

Lemma detectMotion_total_witness :
  detectMotionResult dark2 lit2 = Mask [true; true].
Proof.
  refine (eq_trans
            (proj2 (proj2 (proj2 (proj2 (detectMotion_total dark2 lit2))))
               _ _ eq_refl eq_refl) eq_refl);
    unfold wellFormed; cbn; repeat split; lia.
Defined.

(** ** Region activation *)

Lemma exceeds_count (cw : Z) (diff : list Z) (btn : Button) :
  0 < totalPixels btn ->
  (exceeds cw diff btn = true <->
   15 * totalPixels btn < 100 * motionCount cw diff btn).
Proof.
  intro Hpos. unfold exceeds. rewrite Qltb_lt. unfold ratio, THRESHOLD.
  set (m := motionCount cw diff btn).
  destruct (totalPixels btn) as [|n|n]; try lia.
  unfold Qlt, Qdiv, Qmult, Qinv, inject_Z. cbn [Qnum Qden].
  rewrite Pos.mul_1_l, Z.mul_1_r. lia.
Qed.

(** C3.  On a frame of an active round on which two regions pass the
    activation test, [lastActivatedIndex] becomes the index of a single
    region: the one declared last among those that pass, hence the later
    of the two or one declared after it, and never the earlier. *)
Theorem tie_break_last_declared (btns : list Button) (prev cur : ImageData)
    (s : State) (i j : nat) (bi bj : Button) :
  previousFrame s = Some prev ->
  gameOver s = false -> roundActive s = true ->
  (i < j)%nat ->
  nth_error btns i = Some bi -> nth_error btns j = Some bj ->
  exceeds (width cur) (detectMotion prev cur) bi = true ->
  exceeds (width cur) (detectMotion prev cur) bj = true ->
  (exists k bk,
     lastActivatedIndex (detectStep btns cur s) = Some (Z.of_nat k) /\
     (j <= k)%nat /\ k <> i /\ nth_error btns k = Some bk /\
     exceeds (width cur) (detectMotion prev cur) bk = true /\
     (forall m bm, (k < m)%nat -> nth_error btns m = Some bm ->
        exceeds (width cur) (detectMotion prev cur) bm = false)) /\
  ((forall m bm, (j < m)%nat -> nth_error btns m = Some bm ->
      exceeds (width cur) (detectMotion prev cur) bm = false) ->
   lastActivatedIndex (detectStep btns cur s) = Some (Z.of_nat j)).
Proof.
  intros Hp Hg Ha Hij Hi Hj Ei Ej.
  unfold detectStep. rewrite Hp, Hg. cbn [negb].
  rewrite checkVirtualButtons_last by exact Ha.
  destruct (lastExceeding_ge _ _ btns 0 j bj Hj Ej) as (r & Hr & Hle).
  rewrite Hr.
  destruct (lastExceeding_some _ _ btns 0 r Hr) as (k & bk & -> & Hk & Ek & Hl).
  cbn [Z.add] in *.
  split.
  - exists k, bk. repeat split; auto; lia.
  - intro Hlast. f_equal. f_equal.
    destruct (Nat.lt_trichotomy j k) as [L|[E|L]]; [|exact (eq_sym E)|lia].
    rewrite (Hlast k bk L Hk) in Ek. discriminate.
Qed.

Lemma tie_break_last_declared_witness :
  lastActivatedIndex
    (detectStep [dot 0; dot 1] lit2 (inRound dark2 0 None)) = Some 1.
Proof.
  refine (proj2 (tie_break_last_declared [dot 0; dot 1] dark2 lit2
                   (inRound dark2 0 None) 0 1 (dot 0) (dot 1)
                   eq_refl eq_refl eq_refl _ eq_refl eq_refl _ _) _).
  - lia.
  - vm_compute. reflexivity.
  - vm_compute. reflexivity.
  - intros m bm Hm Hn. destruct m as [|[|m]]; [lia|lia|].
    destruct m; discriminate.
Defined.

Lemma detectStep_quiet (btns : list Button) (t : Tick) (s : State) :
  quietFrame btns (previousFrame s) t -> detectStep btns (frame t) s = s.
Proof.
  unfold quietFrame, detectStep.
  destruct (previousFrame s) as [prev|]; [|reflexivity].
  intro H. destruct (gameOver s); [reflexivity|]. cbn [negb].
  apply checkVirtualButtons_quiet. exact H.
Qed.

Lemma processFrame_quiet (btns : list Button) (t : Tick) (s : State) :
  gameOver s = false -> roundActive s = true ->
  quietFrame btns (previousFrame s) t ->
  (tClock t < roundEndsAt s)%Q ->
  processFrame btns t s = setPreviousFrame (storedAfter (previousFrame s) t) s.
Proof.
  intros Hg Ha Hq Hlt.
  rewrite (processFrame_before_deadline btns t s Hg Ha Hlt).
  unfold storedAfter. rewrite (detectStep_quiet btns t s Hq).
  destruct (width (frame t) =? 0); [destruct s|]; reflexivity.
Qed.

(** C10.  On a frame of an active round on which no region passes the
    activation test, [lastActivatedIndex] keeps its value; over any
    number of such frames before the deadline the recorded activation
    stays in place and the round stays active. *)
Theorem activation_persists (btns : list Button) (ts : list Tick)
    (s : State) :
  gameOver s = false -> roundActive s = true ->
  quietRun btns (previousFrame s) ts ->
  Forall (fun u => (tClock u < roundEndsAt s)%Q) ts ->
  (forall t, quietFrame btns (previousFrame s) t ->
     lastActivatedIndex (detectStep btns (frame t) s) =
     lastActivatedIndex s) /\
  lastActivatedIndex (run btns ts s) = lastActivatedIndex s /\
  roundActive (run btns ts s) = true.
Proof.
  intros Hg Ha Hq Hall. split.
  - intros t Ht. rewrite (detectStep_quiet btns t s Ht). reflexivity.
  - revert s Hg Ha Hq Hall.
    induction ts as [|t ts IH]; intros s Hg Ha Hq Hall.
    + split; [reflexivity|exact Ha].
    + destruct Hq as [Hq Hrest].
      inversion Hall as [|u us Ht Hts]; subst.
      cbn [run fold_left]. fold (run btns ts (processFrame btns t s)).
      rewrite (processFrame_quiet btns t s Hg Ha Hq Ht).
      apply (IH (setPreviousFrame (storedAfter (previousFrame s) t) s));
        assumption.
Qed.

Lemma activation_persists_witness :
  lastActivatedIndex
    (run [dot 0; dot 1] [tickAt lit2 100; tickAt lit2 200]
       (inRound lit2 0 (Some 1))) = Some 1.
Proof.
  refine (proj1 (proj2 (activation_persists [dot 0; dot 1]
            [tickAt lit2 100; tickAt lit2 200]
            (inRound lit2 0 (Some 1)) eq_refl eq_refl _ _))).
  - cbn [quietRun quietFrame storedAfter inRound previousFrame].
    repeat split; intros b [<-|[<-|[]]]; vm_compute; reflexivity.
  - repeat constructor.
Defined.

(** ** Round clock *)

(** C5, as stated, fails.  A frame taken while the video has no width is
    skipped before the clock is looked at: the round that ends at 2100 ms
    is still active after a frame at 2100 ms, and after one at 5000 ms. *)
Lemma round_lifecycle_counterexample :
  let s := startRound buttons 100 0 initialState in
  let blank := mkImage 0 0 [] in
  roundEndsAt s = 2100%Q /\
  (roundEndsAt s <= tClock (tickAt blank 2100))%Q /\
  phase (processFrame buttons (tickAt blank 2100) s) = RoundActive /\
  phase (run buttons [tickAt blank 2100; tickAt blank 5000] s) = RoundActive.
Proof.
  cbv zeta. split; [vm_compute; reflexivity|]. split.
  - vm_compute. discriminate.
  - split; vm_compute; reflexivity.
Qed.

(** C5, amended.  [startRound] sets the deadline to the double nearest to
    its clock reading plus 2000 ms, less than a millisecond off the exact
    sum.  Frames whose time is before the deadline, in particular one at
    deadline - 1, leave the round active, and so does a frame taken while
    the video has no width, whatever its time.  The first processed frame
    of a video with a width whose time has reached the deadline ends the
    round: the phase becomes Flash, or GameOver when the round is missed
    and the last life is lost. *)
Theorem round_lifecycle (btns : list Button) (now rnd : Q) (s0 : State)
    (ts : list Tick) (t : Tick) :
  gameOver s0 = false ->
  let s := startRound btns now rnd s0 in
  let d := roundEndsAt s in
  d = fl (now + 2000) /\
  (clockRange now -> (now + 1999 < d)%Q /\ (d < now + 2001)%Q) /\
  phase s = RoundActive /\
  (Forall (fun u => (tClock u < d)%Q) ts ->
   let s1 := run btns ts s in
   phase s1 = RoundActive /\ roundEndsAt s1 = d /\
   ((tClock t == d - 1)%Q -> phase (processFrame btns t s1) = RoundActive) /\
   (width (frame t) = 0 -> processFrame btns t s1 = s1) /\
   (width (frame t) <> 0 -> (d <= tClock t)%Q -> (tClock t <= tEnd t)%Q ->
    clockRange (tEnd t) ->
    phase (processFrame btns t s1) =
    if negb (isHit (detectStep btns (frame t) s1)) && (hp s1 - 1 =? 0)
    then GameOver else Flash)).
Proof.
  intro Hg. cbv zeta.
  assert (Hs : startRound btns now rnd s0 =
               mkState (previousFrame s0) (hp s0) (gameOver s0) true
                 (fl (now + ROUND_MS))
                 (Qfloor (fl (rnd * inject_Z (Z.of_nat (length btns)))))
                 false None (flashEndsAt s0) None None).
  { unfold startRound. rewrite Hg. reflexivity. }
  rewrite Hs. cbn [roundEndsAt].
  set (s := mkState _ _ _ _ _ _ _ _ _ _ _) in *.
  split; [reflexivity|].
  split.
  { intro Hr.
    destruct (fl_deadline now ROUND_MS Hr) as (Hl & Hu & _);
      [unfold ROUND_MS; lra|unfold ROUND_MS; lra|].
    unfold ROUND_MS in *. split; lra. }
  split; [apply phase_RoundActive; split; [exact Hg|reflexivity]|].
  intro Hall.
  destruct (run_before_deadline btns ts s Hg eq_refl Hall)
    as (Hg1 & Ha1 & Hd1 & Hhp1 & _).
  cbn [roundEndsAt s] in Hd1.
  set (s1 := run btns ts s) in *.
  split; [apply phase_RoundActive; auto|]. split; [exact Hd1|].
  split; [|split].
  - intro Ht.
    assert (Hlt : (tClock t < roundEndsAt s1)%Q).
    { rewrite Hd1, Ht. lra. }
    rewrite (processFrame_before_deadline btns t s1 Hg1 Ha1 Hlt).
    destruct (width (frame t) =? 0); [apply phase_RoundActive; auto|].
    destruct (detectStep_frame btns (frame t) s1) as [v ->].
    apply phase_RoundActive. auto.
  - intro Hw. unfold processFrame. rewrite Hw. reflexivity.
  - intros Hw Hd Hm Hr.
    rewrite processFrame_at_deadline; auto; [|rewrite Hd1; exact Hd].
    destruct (detectStep_frame btns (frame t) s1) as [v Hv]. rewrite Hv.
    change (phase (setPreviousFrame (Some (frame t))
                     (endRound (tEnd t) (setLastActivated v s1))))
      with (phase (endRound (tEnd t) (setLastActivated v s1))).
    rewrite phase_endRound by exact Hg1. reflexivity.
Qed.

Lemma round_lifecycle_witness :
  let s := startRound buttons 100 0 initialState in
  roundEndsAt s = fl (100 + 2000) /\
  phase (processFrame buttons (tickAt dark2 2099) s) = RoundActive /\
  phase (processFrame buttons (tickAt dark2 2100) s) = Flash.
Proof.
  cbv zeta.
  destruct (round_lifecycle buttons 100 0 initialState []
              (tickAt dark2 2099) eq_refl) as (Hd & _ & _ & Hrun).
  destruct (Hrun (Forall_nil _)) as (_ & _ & Hbefore & _).
  destruct (round_lifecycle buttons 100 0 initialState []
              (tickAt dark2 2100) eq_refl) as (_ & _ & _ & Hrun').
  destruct (Hrun' (Forall_nil _)) as (_ & _ & _ & _ & Hat).
  split; [exact Hd|]. split.
  - apply Hbefore. vm_compute. reflexivity.
  - etransitivity; [apply Hat|reflexivity].
    + discriminate.
    + vm_compute. discriminate.
    + unfold Qle. cbn. lia.
    + unfold clockRange, Qle. cbn. lia.
Defined.

(** C8.  One call of [maybeAdvanceGameClock] makes at most one transition.
    With a clock that does not run backwards between the reading of
    [now] and the reading in [endRound], and whose readings lie in the
    range of [performance.now()], a round that ends on this call is not
    restarted by it, since the new flash deadline, rounded as it is, lies
    strictly after [now]; and a game over reached on this call is where
    it stops. *)
Theorem one_transition_per_tick (btns : list Button) (now tE tS rnd : Q)
    (s : State) :
  (now <= tE)%Q -> clockRange tE ->
  let s' := maybeAdvanceGameClock btns now tE tS rnd s in
  (s' = s \/
   (s' = endRound tE s /\ phase s = RoundActive) \/
   (s' = startRound btns tS rnd s /\ roundActive s = false)) /\
  (phase s = RoundActive -> (roundEndsAt s <= now)%Q ->
   s' = endRound tE s /\ roundActive s' = false /\
   (now < flashEndsAt s')%Q /\ phase s' <> RoundActive /\
   (negb (isHit s) && (hp s - 1 =? 0) = true -> phase s' = GameOver)).
Proof.
  intros Hm Hr. cbv zeta. split.
  - destruct (gameOver s) eqn:Hg.
    { left. unfold maybeAdvanceGameClock. rewrite Hg. cbn [negb andb].
      rewrite Hg. reflexivity. }
    destruct (roundActive s) eqn:Ha.
    + destruct (Qgeb now (roundEndsAt s)) eqn:Hd.
      * right. left. apply Qgeb_ge in Hd.
        rewrite clock_at_deadline by assumption.
        split; [reflexivity|]. apply phase_RoundActive. auto.
      * left. apply Qgeb_lt in Hd.
        apply clock_before_deadline; assumption.
    + unfold maybeAdvanceGameClock. rewrite Hg, Ha. cbn [negb andb].
      rewrite Hg, Ha. cbn [negb andb].
      destruct (isSome (flashingTarget s) && Qgeb now (flashEndsAt s)); auto.
  - intros Hp Hd. apply phase_RoundActive in Hp. destruct Hp as [Hg Ha].
    rewrite clock_at_deadline by assumption.
    split; [reflexivity|]. split; [reflexivity|]. split.
    { cbn [endRound flashEndsAt].
      destruct (fl_deadline tE FLASH_MS Hr) as (_ & _ & H);
        [unfold FLASH_MS; lra|unfold FLASH_MS; lra|]. lra. }
    split.
    + rewrite phase_endRound by exact Hg.
      destruct (negb (isHit s) && (hp s - 1 =? 0)); discriminate.
    + intro Hl. rewrite phase_endRound by exact Hg. rewrite Hl. reflexivity.
Qed.

Lemma one_transition_per_tick_witness :
  maybeAdvanceGameClock buttons 2000 2001 2002 0 (inRound dark2 0 None) =
  endRound 2001 (inRound dark2 0 None).
Proof.
  refine (proj1 (proj2 (one_transition_per_tick buttons 2000 2001 2002 0
                          (inRound dark2 0 None) _ _) eq_refl _)).
  - unfold Qle. cbn. lia.
  - unfold clockRange, Qle. cbn. lia.
  - unfold Qle. cbn. lia.
Defined.

(** ** Lives and game over *)

Lemma gameView_fields (s s' : State) :
  gameView s' = gameView s ->
  hp s' = hp s /\ gameOver s' = gameOver s /\
  roundActive s' = roundActive s /\ roundEndsAt s' = roundEndsAt s /\
  targetIndex s' = targetIndex s /\ hitRecorded s' = hitRecorded s /\
  flashingTarget s' = flashingTarget s /\ flashEndsAt s' = flashEndsAt s /\
  flashColor s' = flashColor s /\
  lastActivatedIndex s' = lastActivatedIndex s.
Proof.
  intro H.
  repeat split;
    match goal with
    | |- ?f s' = ?f s =>
        change (f (gameView s') = f (gameView s)); rewrite H; reflexivity
    end.
Qed.

Lemma phase_gameView (s s' : State) :
  gameView s' = gameView s -> phase s' = phase s.
Proof.
  intro H. change (phase (gameView s') = phase (gameView s)).
  rewrite H. reflexivity.
Qed.

(** C1.  In every session the lives counter stays between 0 and [MAX_HP]
    and never grows from one frame to a later one.  Once it is 0 the phase
    is GameOver for good: every later frame skips the hit test and the
    clock, and lives, phase, target, flash fields and
    [lastActivatedIndex] stay as they are. *)
Theorem lives_monotone_gameOver_terminal (btns : list Button) (now rnd : Q)
    (ts1 ts2 : list Tick) :
  let s1 := run btns ts1 (startCamera btns now rnd) in
  let s2 := run btns ts2 s1 in
  0 <= hp s1 <= MAX_HP /\ hp s2 <= hp s1 /\
  (hp s1 = 0 ->
   phase s1 = GameOver /\ phase s2 = GameOver /\
   (forall t, detectStep btns (frame t) s2 = s2 /\
              processFrame btns t s2 =
              setPreviousFrame (storedAfter (previousFrame s2) t) s2) /\
   hp s2 = hp s1 /\ gameOver s2 = gameOver s1 /\
   roundActive s2 = roundActive s1 /\ roundEndsAt s2 = roundEndsAt s1 /\
   targetIndex s2 = targetIndex s1 /\ hitRecorded s2 = hitRecorded s1 /\
   flashingTarget s2 = flashingTarget s1 /\
   flashEndsAt s2 = flashEndsAt s1 /\ flashColor s2 = flashColor s1 /\
   lastActivatedIndex s2 = lastActivatedIndex s1).
Proof.
  cbv zeta.
  set (s1 := run btns ts1 (startCamera btns now rnd)).
  set (s2 := run btns ts2 s1).
  assert (Hl : livesOk s1).
  { apply run_livesOk. apply startCamera_livesOk. }
  split.
  { destruct Hl as [[_ H]|[_ H]]; unfold MAX_HP in *; lia. }
  split; [apply run_hp_le|].
  intro H0.
  assert (Hg : gameOver s1 = true).
  { destruct Hl as [[_ H]|[H _]]; [lia|exact H]. }
  pose proof (run_gameOver btns ts2 s1 Hg) as Hv. fold s2 in Hv.
  assert (Hg2 : gameOver s2 = true).
  { rewrite (gameView_gameOver _ _ Hv). exact Hg. }
  split; [apply phase_GameOver; exact Hg|].
  split; [apply phase_GameOver; exact Hg2|].
  split; [|apply gameView_fields; exact Hv].
  intro t. rewrite (detectStep_gameOver btns (frame t) s2 Hg2).
  split; [reflexivity|].
  unfold processFrame, storedAfter.
  rewrite (detectStep_gameOver btns (frame t) s2 Hg2), Hg2.
  destruct (width (frame t) =? 0); [destruct s2|]; reflexivity.
Qed.

(** * An evaluator for integer layouts

    On a canvas where the corners of the buttons fall on whole pixels the
    reads of the hit test walk the mask row by row.  [rectCount] counts
    that way, and the frame functions built on it compute the same states
    as [processFrame]; they serve to evaluate sessions on full frames. *)

Section IntegerLayout.

Lemma Qred_inject_Z (n : Z) : Qred (inject_Z n) = inject_Z n.
Proof.
  unfold Qred, inject_Z.
  pose proof (Z.ggcd_gcd n 1) as Hg.
  pose proof (Z.ggcd_correct_divisors n 1) as Hd.
  destruct (Z.ggcd n 1) as [g [aa bb]]. cbn [fst snd] in *.
  rewrite Z.gcd_1_r in Hg. subst g. destruct Hd as [Ha Hb].
  rewrite Z.mul_1_l in Ha, Hb. subst aa bb. reflexivity.
Qed.

Lemma diffAt_int (diff : list Z) (di : Q) (n : Z) :
  (di == inject_Z n)%Q -> 0 <= n ->
  diffAt diff di = nth_error diff (Z.to_nat n).
Proof.
  intros H Hn. unfold diffAt. cbv zeta.
  rewrite (Qred_complete _ _ H), Qred_inject_Z. cbn [inject_Z Qnum Qden].
  rewrite Pos.eqb_refl, (proj2 (Z.leb_le 0 n) Hn). reflexivity.
Qed.

Lemma motionAt_int (cw : Z) (diff : list Z) (j i : Q) (J I : Z) :
  (j == inject_Z J)%Q -> (i == inject_Z I)%Q -> 0 <= J * cw + I ->
  motionAt cw diff j i =
  numGt (nth_error diff (Z.to_nat (4 * (J * cw + I)))) 128.
Proof.
  intros Hj Hi Hn. unfold motionAt.
  rewrite (diffAt_int diff _ (4 * (J * cw + I))); [reflexivity| |lia].
  rewrite Hj, Hi, !inject_Z_mult, inject_Z_plus, inject_Z_mult.
  change (inject_Z 4) with 4%Q. ring.
Qed.

Lemma fold_left_map_in {A B C : Type} (f : A -> C -> A) (g : B -> C)
    (h : A -> B -> A) (l : list B) :
  (forall a x, In x l -> f a (g x) = h a x) ->
  forall a, fold_left f (map g l) a = fold_left h l a.
Proof.
  induction l as [|x l IH]; intros H a; [reflexivity|].
  cbn [map fold_left]. rewrite H by (left; reflexivity).
  apply IH. intros a' x' Hx. apply H. right. exact Hx.
Qed.

Lemma row_strideCount (cw : Z) (diff : list Z) (j x : Q) (J X : Z) :
  (j == inject_Z J)%Q -> (x == inject_Z X)%Q -> 0 <= J * cw + X ->
  forall (n a : nat) (acc : Z),
  fold_left
    (fun acc' k =>
       if motionAt cw diff j (x + inject_Z (Z.of_nat k))%Q
       then acc' + 1 else acc')
    (seq a n) acc =
  strideCount n (skipn (Z.to_nat (4 * (J * cw + X)) + 4 * a) diff) acc.
Proof.
  intros Hj Hx Hn n.
  induction n as [|n IH]; intros a acc; [reflexivity|].
  cbn [seq fold_left strideCount].
  rewrite IH. rewrite skipn_skipn, hd_error_skipn.
  rewrite (motionAt_int cw diff j _ J (X + Z.of_nat a)); try assumption.
  - replace (Z.to_nat (4 * (J * cw + (X + Z.of_nat a))))
      with (Z.to_nat (4 * (J * cw + X)) + 4 * a)%nat by lia.
    replace (4 + (Z.to_nat (4 * (J * cw + X)) + 4 * a))%nat
      with (Z.to_nat (4 * (J * cw + X)) + 4 * S a)%nat by lia.
    reflexivity.
  - rewrite Hx, inject_Z_plus. reflexivity.
  - lia.
Qed.

Lemma rows_rowsCount (cw : Z) (diff : list Z) (X Y : Z) (w : nat) :
  0 <= X -> 0 <= Y -> 0 <= cw ->
  forall (h a : nat) (acc : Z),
  fold_left
    (fun acc0 j =>
       strideCount w
         (skipn (Z.to_nat (4 * ((Y + Z.of_nat j) * cw + X))) diff) acc0)
    (seq a h) acc =
  rowsCount h w (Z.to_nat (4 * cw))
    (skipn (Z.to_nat (4 * ((Y + Z.of_nat a) * cw + X))) diff) acc.
Proof.
  intros HX HY Hc h.
  induction h as [|h IH]; intros a acc; [reflexivity|].
  cbn [seq fold_left rowsCount]. rewrite IH, skipn_skipn.
  replace (Z.to_nat (4 * cw) + Z.to_nat (4 * ((Y + Z.of_nat a) * cw + X)))%nat
    with (Z.to_nat (4 * ((Y + Z.of_nat (S a)) * cw + X))) by nia.
  reflexivity.
Qed.

Lemma motionCount_rect (cw : Z) (diff : list Z) (btn : Button) (r : Rect) :
  layoutOf cw btn r -> motionCount cw diff btn = rectCount cw diff r.
Proof.
  intros (Hx & Hy & Hw & Hh & Hx0 & Hy0 & Hc).
  unfold motionCount, rectCount, loopRange. rewrite Hw, Hh.
  rewrite (fold_left_map_in _ _
             (fun acc0 j =>
                strideCount (Z.to_nat (rw r))
                  (skipn (Z.to_nat (4 * ((ry r + Z.of_nat j) * cw + rx r)))
                     diff) acc0)).
  - rewrite (rows_rowsCount cw diff (rx r) (ry r)) by assumption.
    rewrite Z.add_0_r. reflexivity.
  - intros acc j _.
    rewrite (fold_left_map_in _ _
               (fun acc' k =>
                  if motionAt cw diff (btn_y btn cw + inject_Z (Z.of_nat j))
                       (btn_x btn cw + inject_Z (Z.of_nat k))%Q
                  then acc' + 1 else acc'))
      by reflexivity.
    rewrite (row_strideCount cw diff _ _ (ry r + Z.of_nat j) (rx r)).
    + rewrite Nat.mul_0_r, Nat.add_0_r. reflexivity.
    + rewrite Hy, inject_Z_plus. reflexivity.
    + exact Hx.
    + nia.
Qed.

Lemma forEachButton_rects (cw : Z) (diff : list Z) (active : bool)
    (btns : list Button) (rects : list Rect) :
  Forall2 (layoutOf cw) btns rects ->
  forall idx frameLast,
  forEachButton cw diff active btns idx frameLast =
  forEachRect cw diff active rects idx frameLast.
Proof.
  induction 1 as [|b r btns rects Hb _ IH]; intros idx fl;
    [reflexivity|].
  cbn [forEachButton forEachRect]. rewrite IH. f_equal.
  unfold checkButton, checkRect, ratio, totalPixels.
  rewrite (motionCount_rect cw diff b r Hb).
  destruct Hb as (_ & _ & -> & -> & _). reflexivity.
Qed.

Lemma processFrame_rects (btns : list Button) (rects : list Rect)
    (t : Tick) (s : State) :
  Forall2 (layoutOf (width (frame t))) btns rects ->
  processFrame btns t s = processFrameRects btns rects t s.
Proof.
  intro H. unfold processFrame, processFrameRects.
  replace (detectStepRects rects (frame t) s)
    with (detectStep btns (frame t) s); [reflexivity|].
  unfold detectStep, detectStepRects, checkVirtualButtons, checkRects.
  destruct (previousFrame s); [|reflexivity].
  rewrite (forEachButton_rects _ _ _ btns rects H). reflexivity.
Qed.

Lemma run_rects (btns : list Button) (rects : list Rect)
    (ts : list Tick) : forall s,
  Forall (fun t => Forall2 (layoutOf (width (frame t))) btns rects) ts ->
  run btns ts s = runRects btns rects ts s.
Proof.
  induction ts as [|t ts IH]; intros s H; [reflexivity|].
  inversion H as [|u us Ht Hts]; subst.
  cbn [run runRects fold_left].
  rewrite (processFrame_rects btns rects t s Ht).
  apply IH. exact Hts.
Qed.

End IntegerLayout.

(** ** The motion count of a region *)

Lemma row_pixels (cw : Z) (diff : list Z) (j : Q) (x : Q) (J X : Z) :
  (j == inject_Z J)%Q -> (x == inject_Z X)%Q ->
  0 <= J -> 0 <= X -> 0 <= cw ->
  forall (ks : list nat) (acc : Z),
  fold_left
    (fun acc' k =>
       if motionAt cw diff j (x + inject_Z (Z.of_nat k))%Q
       then acc' + 1 else acc')
    ks acc =
  acc + Z.of_nat
          (length
             (filter (maskMotion diff)
                (map (fun i => Z.to_nat (J * cw + (X + Z.of_nat i))) ks))).
Proof.
  intros Hj Hx HJ HX Hc ks.
  induction ks as [|k ks IH]; intro acc; cbn [fold_left map filter length].
  - lia.
  - rewrite IH.
    rewrite (motionAt_int cw diff j _ J (X + Z.of_nat k)); try assumption.
    + unfold maskMotion at 2.
      replace (4 * Z.to_nat (J * cw + (X + Z.of_nat k)))%nat
        with (Z.to_nat (4 * (J * cw + (X + Z.of_nat k)))) by nia.
      destruct (numGt _ 128); cbn [length]; lia.
    + rewrite Hx, inject_Z_plus. reflexivity.
    + nia.
Qed.

(** The count of the hit test is the number of pixels of the rectangle
    that the mask marks. *)
Lemma motionCount_pixels (cw : Z) (diff : list Z) (btn : Button) (r : Rect) :
  layoutOf cw btn r -> motionCount cw diff btn = motionPixelsIn cw diff r.
Proof.
  intros (Hx & Hy & Hw & Hh & Hx0 & Hy0 & Hc).
  unfold motionCount, motionPixelsIn, rectPixels, loopRange. rewrite Hw, Hh.
  set (row := fun j : nat =>
         map (fun i => Z.to_nat ((ry r + Z.of_nat j) * cw
                                 + (rx r + Z.of_nat i)))
             (seq 0 (Z.to_nat (rw r)))).
  rewrite (fold_left_map_in _ _
             (fun acc0 j =>
                acc0 + Z.of_nat (length (filter (maskMotion diff) (row j))))).
  - assert (G : forall js acc,
              fold_left
                (fun acc0 j =>
                   acc0 + Z.of_nat (length (filter (maskMotion diff) (row j))))
                js acc =
              acc + Z.of_nat
                      (length (filter (maskMotion diff) (flat_map row js)))).
    { clear. induction js as [|j js IH]; intro acc;
        cbn [fold_left flat_map]; [cbn; lia|].
      rewrite IH, filter_app, length_app. lia. }
    rewrite G. lia.
  - intros acc j _.
    rewrite (fold_left_map_in _ _
               (fun acc' k =>
                  if motionAt cw diff (btn_y btn cw + inject_Z (Z.of_nat j))
                       (btn_x btn cw + inject_Z (Z.of_nat k))%Q
                  then acc' + 1 else acc'))
      by reflexivity.
    apply (row_pixels cw diff _ _ (ry r + Z.of_nat j) (rx r)); try lia.
    + rewrite Hy, inject_Z_plus. reflexivity.
    + exact Hx.
Qed.

Lemma ratio_at_015 (cw : Z) (diff : list Z) (btn : Button) :
  (ratio cw diff btn == 15 # 100)%Q -> exceeds cw diff btn = false.
Proof.
  intro E. unfold exceeds. apply Qltb_ge. rewrite E. unfold THRESHOLD.
  apply Qle_refl.
Qed.

(** C6.  The activation test is a strict inequality on the motion ratio,
    the count of the hit test divided by the width times the height of
    the region; for a region whose rectangle falls on whole pixels the
    count is the number of pixels of the rectangle that the mask marks as
    motion.  In an active round a region whose ratio is exactly 0.15 is
    not activated: [checkVirtualButtons] does not make it the activated
    region, and changes nothing if no other region passes.  A region
    whose ratio is strictly greater than 0.15 is activated:
    [checkVirtualButtons] makes it, or a region declared after it that
    passes too, the activated region. *)
Theorem ratio_strict (btns : list Button) (cw : Z) (diff : list Z)
    (s : State) (i : nat) (btn : Button) :
  nth_error btns i = Some btn -> roundActive s = true ->
  let s' := checkVirtualButtons btns cw diff s in
  ratio cw diff btn =
    (inject_Z (motionCount cw diff btn)
     / inject_Z (btn_w btn * btn_h btn))%Q /\
  (forall r, layoutOf cw btn r ->
     let m := motionPixelsIn cw diff r in
     motionCount cw diff btn = m /\
     (0 < rw r -> 0 < rh r ->
      ((ratio cw diff btn == 15 # 100)%Q <-> 100 * m = 15 * (rw r * rh r)) /\
      ((15 # 100 < ratio cw diff btn)%Q <-> 15 * (rw r * rh r) < 100 * m))) /\
  ((ratio cw diff btn == 15 # 100)%Q ->
   (lastActivatedIndex s' = Some (Z.of_nat i) -> s' = s) /\
   ((forall k b, k <> i -> nth_error btns k = Some b ->
       exceeds cw diff b = false) -> s' = s)) /\
  ((15 # 100 < ratio cw diff btn)%Q ->
   (exists k, lastActivatedIndex s' = Some (Z.of_nat k) /\ (i <= k)%nat) /\
   ((forall k b, (i < k)%nat -> nth_error btns k = Some b ->
       exceeds cw diff b = false) ->
    lastActivatedIndex s' = Some (Z.of_nat i))).
Proof.
  intros Hi Ha. cbv zeta.
  split; [reflexivity|]. split.
  { intros r Hlay.
    pose proof (motionCount_pixels cw diff btn r Hlay) as Hm.
    split; [exact Hm|]. intros Hw Hh.
    destruct Hlay as (_ & _ & Ew & Eh & _).
    assert (Ht : totalPixels btn = rw r * rh r)
      by (unfold totalPixels; rewrite Ew, Eh; reflexivity).
    assert (Hpos : 0 < rw r * rh r) by nia.
    split.
    - unfold ratio. rewrite Hm, Ht. set (m := motionPixelsIn cw diff r).
      destruct (rw r * rh r) as [|n|n]; try lia.
      unfold Qeq, Qdiv, Qmult, Qinv, inject_Z. cbn [Qnum Qden].
      rewrite Pos.mul_1_l, Z.mul_1_r. lia.
    - rewrite <- Hm, <- Ht. fold THRESHOLD. rewrite <- Qltb_lt.
      apply (exceeds_count cw diff btn). rewrite Ht. exact Hpos. }
  pose proof (checkVirtualButtons_last cw diff btns s Ha) as Hlast.
  split.
  - intro E. pose proof (ratio_at_015 cw diff btn E) as Hn.
    assert (Hquiet : lastExceeding cw diff btns 0 = None ->
                     checkVirtualButtons btns cw diff s = s).
    { intro Hnone. apply checkVirtualButtons_quiet.
      apply (lastExceeding_none cw diff btns 0). exact Hnone. }
    split.
    + intro Hs'. destruct (lastExceeding cw diff btns 0) as [w|] eqn:Ew';
        [|apply Hquiet; reflexivity].
      exfalso. rewrite Hs' in Hlast. injection Hlast as Hwi.
      destruct (lastExceeding_some cw diff btns 0 w Ew')
        as (k & b & -> & Hk & Ek & _).
      assert (k = i) by lia. subst k. rewrite Hi in Hk. injection Hk as <-.
      rewrite Hn in Ek. discriminate.
    + intro Hothers. apply checkVirtualButtons_quiet. intros b Hb.
      destruct (In_nth_error _ _ Hb) as [k Hk].
      destruct (Nat.eq_dec k i) as [->|Hne].
      * rewrite Hi in Hk. injection Hk as <-. exact Hn.
      * apply (Hothers k b Hne Hk).
  - intro L.
    assert (Ei : exceeds cw diff btn = true)
      by (apply Qltb_lt; exact L).
    destruct (lastExceeding_ge cw diff btns 0 i btn Hi Ei) as (w & Hw' & Hle).
    rewrite Hw' in Hlast.
    destruct (lastExceeding_some cw diff btns 0 w Hw')
      as (k & bk & -> & Hk & Ek & Hl).
    cbn [Z.add] in *. split.
    + exists k. split; [exact Hlast|lia].
    + intro Hlater. rewrite Hlast. f_equal. f_equal.
      destruct (Nat.lt_trichotomy i k) as [Lt|[E|Lt]];
        [|exact (eq_sym E)|lia].
      rewrite (Hlater k bk Lt Hk) in Ek. discriminate.
Qed.

(** Three motion pixels of twenty are exactly 15%: not activated.  Four
    of twenty are. *)
Lemma ratio_strict_witness :
  motionCount 20 (maskRow 3 17) strip = 3 /\
  (ratio 20 (maskRow 3 17) strip == 15 # 100)%Q /\
  checkVirtualButtons [strip] 20 (maskRow 3 17) (inRound dark2 0 None) =
    inRound dark2 0 None /\
  lastActivatedIndex
    (checkVirtualButtons [strip] 20 (maskRow 4 16) (inRound dark2 0 None)) =
    Some 0.
Proof.
  assert (Hlay : layoutOf 20 strip (mkRect 0 0 20 1)).
  { unfold layoutOf. cbn. repeat split; try reflexivity; lia. }
  destruct (ratio_strict [strip] 20 (maskRow 3 17) (inRound dark2 0 None)
              0 strip eq_refl eq_refl) as (_ & Hcount & Hat & _).
  destruct (ratio_strict [strip] 20 (maskRow 4 16) (inRound dark2 0 None)
              0 strip eq_refl eq_refl) as (_ & Hcount' & _ & Habove).
  destruct (Hcount _ Hlay) as (Hm & Hcrit).
  destruct (Hcrit eq_refl eq_refl) as (Heq & _).
  destruct (Hcount' _ Hlay) as (_ & Hcrit').
  destruct (Hcrit' eq_refl eq_refl) as (_ & Hgt).
  assert (E : (ratio 20 (maskRow 3 17) strip == 15 # 100)%Q)
    by (apply Heq; vm_compute; reflexivity).
  split; [rewrite Hm; vm_compute; reflexivity|].
  split; [exact E|]. split.
  - apply (proj2 (Hat E)). intros k b Hk Hb.
    destruct k as [|k]; [contradiction|]. destruct k; discriminate.
  - apply (proj2 (Habove (proj2 Hgt ltac:(vm_compute; reflexivity)))).
    intros k b Hk Hb. destruct k as [|k]; [lia|]. destruct k; discriminate.
Defined.

(** * Sessions on full frames *)

Lemma buttons_rects200 : Forall2 (layoutOf 200) buttons rects200.
Proof.
  unfold buttons, rects200, layoutOf.
  repeat constructor; cbn; try lia; try reflexivity.
Qed.

Lemma run_buttons_200 (ts : list Tick) (s : State) :
  forallb (fun t => width (frame t) =? 200) ts = true ->
  run buttons ts s = runRects buttons rects200 ts s.
Proof.
  intro H. apply run_rects. apply Forall_forall. intros t Ht.
  rewrite forallb_forall in H. specialize (H t Ht).
  apply Z.eqb_eq in H. rewrite H. exact buttons_rects200.
Qed.

(** ** Hit or miss at the end of a round *)

Lemma isHit_last (s : State) :
  isHit s = true <-> lastActivatedIndex s = Some (targetIndex s).
Proof.
  unfold isHit. destruct (lastActivatedIndex s) as [k|].
  - rewrite Z.eqb_eq. split; [intros ->; reflexivity|intros [= ->]; reflexivity].
  - split; discriminate.
Qed.

Lemma mostRecent_app (before : option Z) (a b : list Z) :
  mostRecent before (a ++ b) = mostRecent (mostRecent before a) b.
Proof. unfold mostRecent. apply fold_left_app. Qed.

Lemma activations_app (btns : list Button) (ts us : list Tick) :
  forall prevF,
  activations btns prevF (ts ++ us) =
  activations btns prevF ts
  ++ activations btns (fold_left storedAfter ts prevF) us.
Proof.
  induction ts as [|t ts IH]; intro prevF; [reflexivity|].
  cbn [app activations fold_left]. rewrite IH.
  destruct (frameWinner btns prevF t); reflexivity.
Qed.

(** The hit test of one frame of an active round. *)
Lemma detectStep_winner (btns : list Button) (t : Tick) (s : State) :
  gameOver s = false -> roundActive s = true -> width (frame t) <> 0 ->
  lastActivatedIndex (detectStep btns (frame t) s) =
  mostRecent (lastActivatedIndex s)
    (activations btns (previousFrame s) [t]).
Proof.
  intros Hg Ha Hw. unfold detectStep, mostRecent.
  cbn [activations]. unfold frameWinner.
  rewrite (proj2 (Z.eqb_neq _ _) Hw).
  destruct (previousFrame s) as [prev|]; [|reflexivity].
  rewrite Hg. cbn [negb]. rewrite checkVirtualButtons_last by exact Ha.
  destruct (lastExceeding _ _ btns 0); reflexivity.
Qed.

(** Over the frames before the deadline [lastActivatedIndex] follows the
    activations, and the stored frame the processed frames. *)
Lemma run_activations (btns : list Button) (ts : list Tick) : forall s,
  gameOver s = false -> roundActive s = true ->
  Forall (fun u => (tClock u < roundEndsAt s)%Q) ts ->
  lastActivatedIndex (run btns ts s) =
    mostRecent (lastActivatedIndex s)
      (activations btns (previousFrame s) ts) /\
  previousFrame (run btns ts s) = fold_left storedAfter ts (previousFrame s) /\
  hitRecorded (run btns ts s) = hitRecorded s.
Proof.
  induction ts as [|t ts IH]; intros s Hg Ha Hall.
  - repeat split.
  - inversion Hall as [|u us Ht Hts]; subst.
    cbn [run fold_left]. fold (run btns ts (processFrame btns t s)).
    rewrite (processFrame_before_deadline btns t s Hg Ha Ht).
    cbn [activations]. unfold frameWinner, storedAfter.
    destruct (width (frame t) =? 0) eqn:Hw.
    + apply IH; assumption.
    + pose proof (detectStep_winner btns t s Hg Ha
                    (proj1 (Z.eqb_neq _ _) Hw)) as Hl.
      cbn [activations] in Hl. unfold frameWinner in Hl. rewrite Hw in Hl.
      destruct (detectStep_frame btns (frame t) s) as [v Hv].
      rewrite Hv in *. cbn [setLastActivated lastActivatedIndex] in Hl.
      destruct (IH (setPreviousFrame (Some (frame t)) (setLastActivated v s))
                  Hg Ha Hts) as (I1 & I2 & I3).
      rewrite I1, I2, I3.
      cbn [setPreviousFrame setLastActivated lastActivatedIndex
           previousFrame hitRecorded].
      repeat split. rewrite Hl.
      destruct (previousFrame s) as [prev|]; [|reflexivity].
      destruct (lastExceeding _ _ btns 0); reflexivity.
Qed.

(** C4, amended.  [startRound] clears [lastActivatedIndex] and
    [hitRecorded].  Over the frames of the round [lastActivatedIndex] is
    the most recent activation, where a frame activates the region declared
    last among those that pass the test; [hitRecorded] stays false until
    the round ends and is then computed as the equality of the most recent
    activation, the hit test of the closing frame included, and
    [targetIndex].  A round whose most recent activation is the target
    ends with [hitRecorded] true, lives unchanged and the phase Flash with
    the success colour; a round whose most recent activation is another
    region, or that has none, loses a life and flashes the fail colour,
    even if the target was activated earlier. *)
Theorem hit_is_last_activation (btns : list Button) (s : State)
    (ts : list Tick) (t : Tick) :
  phase s = RoundActive ->
  lastActivatedIndex s = None -> hitRecorded s = false ->
  Forall (fun u => (tClock u < roundEndsAt s)%Q) ts ->
  width (frame t) <> 0 ->
  (roundEndsAt s <= tClock t)%Q -> (tClock t <= tEnd t)%Q ->
  clockRange (tEnd t) ->
  let s1 := run btns ts s in
  let s' := processFrame btns t s1 in
  let last := mostRecent None (activations btns (previousFrame s) (ts ++ [t])) in
  (forall now rnd s0, gameOver s0 = false ->
     phase (startRound btns now rnd s0) = RoundActive /\
     lastActivatedIndex (startRound btns now rnd s0) = None /\
     hitRecorded (startRound btns now rnd s0) = false) /\
  lastActivatedIndex s1 =
    mostRecent None (activations btns (previousFrame s) ts) /\
  hitRecorded s1 = false /\
  lastActivatedIndex s' = last /\
  (hitRecorded s' = true <-> last = Some (targetIndex s)) /\
  (last = Some (targetIndex s) ->
   hp s' = hp s /\ phase s' = Flash /\
   flashColor s' = Some success /\
   flashingTarget s' = Some (targetIndex s)) /\
  (last <> Some (targetIndex s) ->
   hitRecorded s' = false /\ hp s' = hp s - 1 /\
   flashColor s' = Some fail).
Proof.
  intros Hp Hl0 Hh0 Hall Hw Hd Hm Hr.
  apply phase_RoundActive in Hp. destruct Hp as [Hg Ha]. cbv zeta.
  split.
  { intros now rnd s0 Hg0. unfold startRound. rewrite Hg0.
    split; [|split; reflexivity].
    apply phase_RoundActive. split; reflexivity. }
  destruct (run_activations btns ts s Hg Ha Hall) as (Hl1 & Hp1 & Hh1).
  destruct (run_before_deadline btns ts s Hg Ha Hall)
    as (Hg1 & Ha1 & Hd1 & Hhp1 & Ht1).
  rewrite Hl0 in Hl1. rewrite Hh0 in Hh1.
  split; [exact Hl1|]. split; [exact Hh1|].
  rewrite activations_app, mostRecent_app, <- Hl1, <- Hp1.
  set (s1 := run btns ts s) in *.
  rewrite <- (detectStep_winner btns t s1 Hg1 Ha1 Hw).
  rewrite <- Hd1 in Hd.
  rewrite (processFrame_at_deadline btns t s1 Hg1 Ha1 Hw Hd Hm Hr).
  destruct (detectStep_frame btns (frame t) s1) as [v Hv]. rewrite Hv.
  set (s2 := setLastActivated v s1).
  assert (Hg2 : gameOver s2 = false) by exact Hg1.
  rewrite <- Ht1, <- Hhp1.
  change (targetIndex s1) with (targetIndex s2).
  change (hp s1) with (hp s2).
  change (phase (setPreviousFrame (Some (frame t)) (endRound (tEnd t) s2)))
    with (phase (endRound (tEnd t) s2)).
  rewrite (phase_endRound (tEnd t) s2 Hg2).
  cbn [setPreviousFrame endRound hitRecorded hp flashColor flashingTarget
       lastActivatedIndex].
  split; [reflexivity|]. split; [apply isHit_last|]. split.
  - intro Hl. apply isHit_last in Hl. rewrite Hl. repeat split.
  - intro Hl.
    assert (Hn : isHit s2 = false).
    { destruct (isHit s2) eqn:E; [|reflexivity].
      apply isHit_last in E. contradiction. }
    rewrite Hn. repeat split.
Qed.

Lemma hit_is_last_activation_witness :
  let s' := run [dot 0; dot 1] [tickAt lit2 500; tickAt lit2 2000]
              (inRound dark2 1 None) in
  lastActivatedIndex s' = Some 1 /\ hitRecorded s' = true.
Proof.
  cbv zeta.
  destruct (hit_is_last_activation [dot 0; dot 1] (inRound dark2 1 None)
              [tickAt lit2 500] (tickAt lit2 2000))
    as (_ & _ & _ & Hlast & Hhit & _).
  - reflexivity.
  - reflexivity.
  - reflexivity.
  - apply Forall_cons; [vm_compute; reflexivity|apply Forall_nil].
  - discriminate.
  - unfold Qle. cbn. lia.
  - unfold Qle. cbn. lia.
  - unfold clockRange, Qle. cbn. lia.
  - split; [exact Hlast|]. apply Hhit. vm_compute. reflexivity.
Defined.

(** C4, as stated, fails.  With the top button as target, a hand covers it
    at 500 ms and it is activated; at 1000 ms a second hand covers the left
    button; the round ends at 2000 ms as a miss: a life is lost and the
    flash colour is fail. *)
Lemma activated_once_counterexample :
  let s0 := startCamera buttons 0 0 in
  let early := [tickAt still 16; tickAt handTop 500] in
  let late := [tickAt handTopLeft 1000; tickAt handTopLeft 2000] in
  targetIndex s0 = 0 /\ hp s0 = 3 /\
  gameView (run buttons early s0) =
    mkState None 3 false true 2000 0 false None 0 None (Some 0) /\
  gameView (run buttons (early ++ late) s0) =
    mkState None 2 false false 2000 0 false (Some 0) 2500 (Some fail)
      (Some 1).
Proof.
  cbv zeta. split; [reflexivity|]. split; [reflexivity|]. split.
  - rewrite run_buttons_200 by (vm_compute; reflexivity).
    vm_compute. reflexivity.
  - rewrite run_buttons_200 by (vm_compute; reflexivity).
    vm_compute. reflexivity.
Qed.

(** ** The last life *)

Lemma buttonFill_gameView (now : Q) (s : State) (idx : Z) :
  buttonFill now (gameView s) idx = buttonFill now s idx.
Proof. reflexivity. Qed.

Lemma drawnFill_gameOver (btns : list Button) (t : Tick) (s : State)
    (idx : Z) :
  gameOver s = true ->
  drawnFill btns t s idx = buttonFill (tDraw t) (gameView s) idx.
Proof.
  intro Hg. unfold drawnFill. rewrite (detectStep_gameOver btns _ s Hg).
  reflexivity.
Qed.

(** C2, amended.  When a round ends as a miss on the last life, [endRound]
    sets [gameOver] in the same call: the phase is GameOver at once and no
    later frame starts a round.  The flash fields are set all the same, to
    the target, the fail colour and a deadline, the double nearest to the
    clock reading plus 500 ms and so more than 499 ms ahead, and
    [drawVirtualButtons] tints the target button with the fail colour on
    every frame drawn before that deadline, and on none drawn from the
    deadline on. *)
Theorem last_life_flash (btns : list Button) (tE : Q) (s : State)
    (ts : list Tick) :
  gameOver s = false -> isHit s = false -> hp s = 1 ->
  let s' := endRound tE s in
  phase s' = GameOver /\ hp s' = 0 /\
  flashingTarget s' = Some (targetIndex s) /\
  flashColor s' = Some fail /\ flashEndsAt s' = fl (tE + 500) /\
  (clockRange tE ->
   (tE + 499 < flashEndsAt s')%Q /\ (flashEndsAt s' < tE + 501)%Q) /\
  gameView (run btns ts s') = gameView s' /\
  (forall t, (tDraw t < flashEndsAt s')%Q ->
     drawnFill btns t (run btns ts s') (targetIndex s) = tintFail) /\
  (forall t, (flashEndsAt s' <= tDraw t)%Q ->
     drawnFill btns t (run btns ts s') (targetIndex s) = BTN_COLOR).
Proof.
  intros Hg Hh Hhp. cbv zeta.
  assert (Hs : endRound tE s =
               mkState (previousFrame s) 0 true false (roundEndsAt s)
                 (targetIndex s) false (Some (targetIndex s))
                 (fl (tE + FLASH_MS)) (Some fail) (lastActivatedIndex s)).
  { unfold endRound. rewrite Hh, Hhp. reflexivity. }
  rewrite Hs. set (s' := mkState _ _ _ _ _ _ _ _ _ _ _).
  pose proof (run_gameOver btns ts s' eq_refl) as Hv.
  split; [reflexivity|]. split; [reflexivity|]. split; [reflexivity|].
  split; [reflexivity|]. split; [reflexivity|]. split.
  { intro Hr. cbn [s' flashEndsAt].
    destruct (fl_deadline tE FLASH_MS Hr) as (Hl & Hu & _);
      [unfold FLASH_MS; lra|unfold FLASH_MS; lra|].
    unfold FLASH_MS in *. split; lra. }
  split; [exact Hv|].
  assert (Hfill : forall t,
            drawnFill btns t (run btns ts s') (targetIndex s) =
            if Qltb (tDraw t) (fl (tE + FLASH_MS)) then tintFail
            else BTN_COLOR).
  { intro t.
    rewrite drawnFill_gameOver
      by (rewrite (gameView_gameOver _ _ Hv); reflexivity).
    rewrite Hv. unfold buttonFill, s'.
    cbn [gameView setPreviousFrame roundActive flashingTarget flashEndsAt
         flashColor negb andb eqOpt].
    rewrite Z.eqb_refl. reflexivity. }
  cbn [s' flashEndsAt]. split; intros t Ht; rewrite Hfill.
  - rewrite (proj2 (Qltb_lt _ _) Ht). reflexivity.
  - rewrite (proj2 (Qltb_ge _ _) Ht). reflexivity.
Qed.

Lemma last_life_flash_witness :
  phase (endRound 7000 (mkState None 1 false true 7000 0 false
                          None 5000 None None)) = GameOver.
Proof.
  exact (proj1 (last_life_flash buttons 7000
                  (mkState None 1 false true 7000 0 false
                     None 5000 None None)
                  [] eq_refl eq_refl eq_refl)).
Defined.

Lemma missedRounds_end :
  gameView (run buttons missedRounds (startCamera buttons 0 0)) =
  mkState None 0 true false 7000 0 false (Some 0) 7500 (Some fail) None.
Proof.
  rewrite run_buttons_200 by (vm_compute; reflexivity).
  vm_compute. reflexivity.
Qed.

(** C2, as stated, fails.  After three missed rounds the game is over with
    the flash fields set, and the frame drawn 16 ms later tints the target
    button with the fail colour. *)
Lemma last_life_flash_counterexample :
  let s := run buttons missedRounds (startCamera buttons 0 0) in
  gameView s =
    mkState None 0 true false 7000 0 false (Some 0) 7500 (Some fail) None /\
  phase s = GameOver /\
  drawnFill buttons (tickAt still 7016) s 0 = tintFail.
Proof.
  cbv zeta. pose proof missedRounds_end as E.
  generalize dependent (run buttons missedRounds (startCamera buttons 0 0)).
  intros s E.
  split; [exact E|]. split.
  - rewrite (phase_gameView (gameView s) s eq_refl), E. reflexivity.
  - rewrite drawnFill_gameOver.
    + rewrite E. reflexivity.
    + rewrite (gameView_gameOver (gameView s) s eq_refl), E. reflexivity.
Qed.

(** On the sample readings the deadlines of the model are the sums the
    program computes, and the products that pick the target are its
    products. *)
Lemma fl_double_samples :
  forallb (fun t => Double.addAgrees t (Double.ofZ 2000)
                    && Double.addAgrees t (Double.ofZ 500))
    Double.sampleClock = true /\
  forallb (fun r => Double.mulAgrees r (Double.ofZ 3)) Double.sampleRandom
    = true.
Proof. split; vm_compute; reflexivity. Qed.

(** The double nearest to 1/10 plus 2000 is not the exact sum, and the
    largest double below 2/3 times 3 is rounded to 2. *)
Lemma fl_rounds :
  ~ (fl (Double.toQ (Double.ofRatio 1 10) + 2000)
     == Double.toQ (Double.ofRatio 1 10) + 2000)%Q /\
  fl ((6004799503160661 # 9007199254740992) * 3) = 2%Q.
Proof. split; [vm_compute; discriminate|vm_compute; reflexivity]. Qed.

Lemma threshold_rounded :
  Double.threshold =
  SFdiv Double.prec Double.emax (Double.ofZ 15) (Double.ofZ 100).
Proof. vm_compute. reflexivity. Qed.

Lemma agreeFrom_spec (t : Z) (n : nat) : forall m0 m,
  Double.agreeFrom t n m0 = true -> m0 <= m < m0 + Z.of_nat n ->
  Double.ratioTest m t = Double.exactTest m t.
Proof.
  induction n as [|n IH]; intros m0 m H Hm; [lia|].
  cbn [Double.agreeFrom] in H. apply andb_prop in H. destruct H as [H0 H].
  destruct (Z.eq_dec m m0) as [->|Hne].
  - apply Bool.eqb_prop. exact H0.
  - apply (IH (m0 + 1)); [exact H|lia].
Qed.

Lemma agreeUpTo_spec (t m : Z) :
  Double.agreeUpTo t = true -> 0 <= m <= t ->
  Double.ratioTest m t = Double.exactTest m t.
Proof.
  unfold Double.agreeUpTo. intros H Hm.
  apply (agreeFrom_spec t _ 0 m H). lia.
Qed.

Lemma agree_7056 : Double.agreeUpTo 7056 = true.
Proof. vm_compute. reflexivity. Qed.

Lemma count_fold_bounds {A : Type} (p : A -> bool) (l : list A) :
  forall acc,
  acc <= fold_left (fun a x => if p x then a + 1 else a) l acc
      <= acc + Z.of_nat (length l).
Proof.
  induction l as [|x l IH]; intro acc; cbn [fold_left length]; [lia|].
  specialize (IH (if p x then acc + 1 else acc)).
  destruct (p x); lia.
Qed.

Lemma motionCount_bounds (cw : Z) (diff : list Z) (btn : Button) :
  0 <= motionCount cw diff btn
    <= Z.of_nat (Z.to_nat (btn_w btn)) * Z.of_nat (Z.to_nat (btn_h btn)).
Proof.
  unfold motionCount, loopRange.
  set (row := map _ (seq 0 (Z.to_nat (btn_w btn)))).
  assert (Hrow : length row = Z.to_nat (btn_w btn)).
  { unfold row. rewrite length_map, length_seq. reflexivity. }
  set (rows := map _ (seq 0 (Z.to_nat (btn_h btn)))).
  assert (Hrows : length rows = Z.to_nat (btn_h btn)).
  { unfold rows. rewrite length_map, length_seq. reflexivity. }
  rewrite <- Hrow, <- Hrows. clearbody row rows. clear Hrow Hrows.
  assert (G : forall acc,
            acc <= fold_left
                     (fun acc0 j =>
                        fold_left
                          (fun acc' i =>
                             if motionAt cw diff j i then acc' + 1 else acc')
                          row acc0) rows acc
                <= acc + Z.of_nat (length row) * Z.of_nat (length rows)).
  { induction rows as [|j rows IH]; intro acc; cbn [fold_left length];
      [lia|].
    pose proof (count_fold_bounds (motionAt cw diff j) row acc) as Hj.
    specialize (IH (fold_left
                      (fun acc' i =>
                         if motionAt cw diff j i then acc' + 1 else acc')
                      row acc)).
    nia. }
  specialize (G 0). lia.
Qed.

(** For each of the declared buttons the activation test of the model
    decides as the test on doubles does. *)
Lemma exceeds_double (cw : Z) (diff : list Z) (btn : Button) :
  In btn buttons ->
  exceeds cw diff btn =
  Double.ratioTest (motionCount cw diff btn) (totalPixels btn).
Proof.
  intro Hb.
  assert (Hs : btn_w btn = 84 /\ btn_h btn = 84).
  { destruct Hb as [<-|[<-|[<-|[]]]]; split; reflexivity. }
  destruct Hs as [Hw Hh].
  pose proof (motionCount_bounds cw diff btn) as Hm.
  unfold totalPixels. rewrite Hw, Hh in *.
  change (84 * 84) with 7056.
  rewrite (agreeUpTo_spec 7056 _ agree_7056) by (cbn in Hm; lia).
  unfold exceeds, ratio, Double.exactTest, totalPixels.
  rewrite Hw, Hh. reflexivity.
Qed.

(** * Sessions: what every reachable state satisfies *)

Section Sessions.

Variable btns : list Button.

Lemma floor_index (r : Q) (n : Z) :
  0 < n -> unitRandom r -> 0 <= Qfloor (fl (r * inject_Z n)) < n.
Proof.
  intros Hn [H0 H1].
  assert (Hq : (0 < inject_Z n)%Q).
  { change 0%Q with (inject_Z 0). rewrite <- Zlt_Qlt. exact Hn. }
  assert (Hx0 : (0 <= r * inject_Z n)%Q).
  { apply Qmult_le_0_compat; [exact H0|]. apply Qlt_le_weak. exact Hq. }
  assert (Hx1 : (r * inject_Z n <= (1 - unitRoundoff) * inject_Z n)%Q).
  { apply Qmult_le_r; assumption. }
  destruct (fl_error (r * inject_Z n) Hx0) as [Hl Hu].
  set (x := (r * inject_Z n)%Q) in *.
  set (y := fl x) in *. clearbody y. clearbody x.
  unfold unitRoundoff in *.
  split.
  - change 0 with (Qfloor (inject_Z 0)) at 1. apply Qfloor_resp_le.
    change (inject_Z 0) with 0%Q. lra.
  - rewrite Zlt_Qlt.
    apply Qle_lt_trans with y; [apply Qfloor_le|]. lra.
Qed.

Lemma maybeAdvanceGameClock_steps (now tE tS rnd : Q) (s : State) :
  let s' := maybeAdvanceGameClock btns now tE tS rnd s in
  s' = s \/
  (roundActive s = true /\ gameOver s = false /\
   (s' = endRound tE s \/ s' = startRound btns tS rnd (endRound tE s))) \/
  (roundActive s = false /\ s' = startRound btns tS rnd s).
Proof.
  cbv zeta. unfold maybeAdvanceGameClock. cbv zeta.
  destruct (gameOver s) eqn:Hg.
  { left. cbn [negb andb]. rewrite Hg. reflexivity. }
  destruct (roundActive s) eqn:Ha.
  - destruct (Qgeb now (roundEndsAt s)); cbn [negb andb].
    + right. left. split; [reflexivity|]. split; [reflexivity|].
      match goal with
      | |- context [if ?c then _ else _] => destruct c
      end; auto.
    + rewrite Hg, Ha. left. reflexivity.
  - cbn [negb andb]. rewrite Hg, Ha. cbn [negb andb].
    destruct (isSome (flashingTarget s) && Qgeb now (flashEndsAt s)); auto.
Qed.

(** *** The flash fields *)

Lemma endRound_flashFits (now : Q) (s : State) : flashFits (endRound now s).
Proof. unfold flashFits, endRound. cbn. split; reflexivity. Qed.

Lemma startRound_flashFits (now rnd : Q) (s : State) :
  flashFits s -> flashFits (startRound btns now rnd s).
Proof.
  intro H. unfold startRound. destruct (gameOver s) eqn:Hg; [exact H|].
  unfold flashFits. cbn. repeat split.
Qed.

Lemma processFrame_flashFits (t : Tick) (s : State) :
  flashFits s -> flashFits (processFrame btns t s).
Proof.
  intro H. unfold processFrame.
  destruct (width (frame t) =? 0); [exact H|].
  destruct (detectStep_frame btns (frame t) s) as [v ->].
  set (s1 := setLastActivated v s).
  assert (H1 : flashFits s1) by exact H.
  change (flashFits
            (if negb (gameOver s1)
             then maybeAdvanceGameClock btns (tClock t) (tEnd t) (tStart t)
                    (random t) s1
             else s1)).
  destruct (gameOver s1); cbn [negb]; [exact H1|].
  destruct (maybeAdvanceGameClock_steps (tClock t) (tEnd t) (tStart t)
              (random t) s1) as [-> | [(_ & _ & [-> | ->]) | (_ & ->)]].
  - exact H1.
  - apply endRound_flashFits.
  - apply startRound_flashFits, endRound_flashFits.
  - apply startRound_flashFits. exact H1.
Qed.

Lemma run_flashFits (ts : list Tick) : forall s,
  flashFits s -> flashFits (run btns ts s).
Proof.
  induction ts as [|t ts IH]; intros s H; [exact H|].
  cbn [run fold_left]. apply IH. apply processFrame_flashFits. exact H.
Qed.

Lemma startCamera_flashFits (now rnd : Q) :
  flashFits (startCamera btns now rnd).
Proof. unfold flashFits, startCamera, startRound. cbn. repeat split. Qed.

(** *** The indices *)

Lemma checkVirtualButtons_index (cw : Z) (diff : list Z) (s : State) (k : Z) :
  lastActivatedIndex (checkVirtualButtons btns cw diff s) = Some k ->
  lastActivatedIndex s = Some k \/ validIndex btns k.
Proof.
  unfold checkVirtualButtons.
  destruct (roundActive s).
  - rewrite forEachButton_active.
    destruct (lastExceeding cw diff btns 0) as [r|] eqn:E; [|auto].
    cbn [setLastActivated lastActivatedIndex]. intros [= <-]. right.
    destruct (lastExceeding_some _ _ _ _ _ E) as (j & b & -> & Hj & _).
    assert (Hlt : (j < length btns)%nat).
    { apply nth_error_Some. rewrite Hj. discriminate. }
    unfold validIndex. lia.
  - rewrite forEachButton_inactive. auto.
Qed.

Lemma detectStep_indicesOk (cur : ImageData) (s : State) :
  indicesOk btns s -> indicesOk btns (detectStep btns cur s).
Proof.
  intros [Ht Hl]. unfold detectStep.
  destruct (previousFrame s) as [prev|]; [|split; assumption].
  destruct (gameOver s); cbn [negb]; [split; assumption|].
  destruct (checkVirtualButtons_frame (width cur) (detectMotion prev cur)
              btns s) as [v Hv].
  split.
  - rewrite Hv. exact Ht.
  - intros k Hk.
    destruct (checkVirtualButtons_index _ _ _ _ Hk) as [H|H]; auto.
Qed.

Lemma startRound_indicesOk (now rnd : Q) (s : State) :
  btns <> [] -> unitRandom rnd ->
  indicesOk btns s -> indicesOk btns (startRound btns now rnd s).
Proof.
  intros Hne Hr H. unfold startRound. destruct (gameOver s); [exact H|].
  split; cbn [targetIndex lastActivatedIndex]; [|discriminate].
  apply floor_index; [|exact Hr].
  destruct btns; [contradiction|cbn [length]; lia].
Qed.

Lemma endRound_indicesOk (now : Q) (s : State) :
  indicesOk btns s -> indicesOk btns (endRound now s).
Proof. intro H. exact H. Qed.

Lemma processFrame_indicesOk (t : Tick) (s : State) :
  btns <> [] -> unitRandom (random t) ->
  indicesOk btns s -> indicesOk btns (processFrame btns t s).
Proof.
  intros Hne Hr H. unfold processFrame.
  destruct (width (frame t) =? 0); [exact H|].
  pose proof (detectStep_indicesOk (frame t) s H) as H1.
  set (s1 := detectStep btns (frame t) s) in *.
  change (indicesOk btns
            (if negb (gameOver s1)
             then maybeAdvanceGameClock btns (tClock t) (tEnd t) (tStart t)
                    (random t) s1
             else s1)).
  destruct (gameOver s1); cbn [negb]; [exact H1|].
  destruct (maybeAdvanceGameClock_steps (tClock t) (tEnd t) (tStart t)
              (random t) s1) as [-> | [(_ & _ & [-> | ->]) | (_ & ->)]];
    auto using startRound_indicesOk, endRound_indicesOk.
Qed.

Lemma run_indicesOk (ts : list Tick) : forall s,
  btns <> [] -> Forall (fun t => unitRandom (random t)) ts ->
  indicesOk btns s -> indicesOk btns (run btns ts s).
Proof.
  induction ts as [|t ts IH]; intros s Hne Hall H; [exact H|].
  inversion Hall as [|u us Hu Hus]; subst.
  cbn [run fold_left]. apply IH; auto.
  apply processFrame_indicesOk; assumption.
Qed.

Lemma startCamera_indicesOk (now rnd : Q) :
  btns <> [] -> unitRandom rnd -> indicesOk btns (startCamera btns now rnd).
Proof.
  intros Hne Hr. apply startRound_indicesOk; auto.
  split; cbn; [|discriminate].
  unfold validIndex. destruct btns; [contradiction|cbn [length]; lia].
Qed.

End Sessions.

(** * Further properties of the game flow *)

(** X1.  In every session whose random numbers lie in [0, 1) and whose
    button list is not empty, [targetIndex] is an index of a button, and
    so is [lastActivatedIndex] whenever it is set. *)
Theorem session_indices_valid (btns : list Button) (now rnd : Q)
    (ts : list Tick) :
  btns <> [] -> unitRandom rnd ->
  Forall (fun t => unitRandom (random t)) ts ->
  let s := run btns ts (startCamera btns now rnd) in
  (exists btn, buttonAt btns (targetIndex s) = Some btn) /\
  0 <= targetIndex s < Z.of_nat (length btns) /\
  (forall k, lastActivatedIndex s = Some k ->
     0 <= k < Z.of_nat (length btns)).
Proof.
  intros Hne Hr Hall. cbv zeta.
  destruct (run_indicesOk btns ts _ Hne Hall
              (startCamera_indicesOk btns now rnd Hne Hr)) as [Ht Hl].
  split; [|split; [exact Ht|exact Hl]].
  unfold buttonAt. unfold validIndex in Ht.
  rewrite (proj2 (Z.ltb_ge _ _) (proj1 Ht)).
  destruct (nth_error btns (Z.to_nat (targetIndex _))) as [b|] eqn:E.
  - exists b. reflexivity.
  - apply nth_error_None in E. lia.
Qed.

Lemma session_indices_valid_witness :
  0 <= targetIndex
         (run [dot 0; dot 1] [tickAt dark2 2000; tickAt dark2 2500]
            (startCamera [dot 0; dot 1] 0 (2 # 3))) < 2.
Proof.
  refine (proj1 (proj2 (session_indices_valid [dot 0; dot 1] 0 (2 # 3)
            [tickAt dark2 2000; tickAt dark2 2500] _ _ _))).
  - discriminate.
  - split; unfold Qle, Qlt; cbn; lia.
  - repeat constructor; unfold Qle, Qlt; cbn; lia.
Defined.

(** X2.  In every session the phase is never Idle; while a round is
    active the flash fields are cleared and [hitRecorded] is false, and
    between rounds and after game over [flashingTarget] is the target
    and [flashColor] is success exactly when [hitRecorded] is true. *)
Theorem session_flash_fields (btns : list Button) (now rnd : Q)
    (ts : list Tick) :
  let s := run btns ts (startCamera btns now rnd) in
  phase s <> Idle /\
  (gameOver s = true -> roundActive s = false) /\
  (roundActive s = true ->
   hitRecorded s = false /\ flashingTarget s = None /\ flashColor s = None) /\
  (roundActive s = false ->
   flashingTarget s = Some (targetIndex s) /\
   flashColor s = Some (if hitRecorded s then success else fail)).
Proof.
  cbv zeta.
  pose proof (run_flashFits btns ts _ (startCamera_flashFits btns now rnd))
    as H.
  set (s := run btns ts (startCamera btns now rnd)) in *.
  unfold flashFits in H. unfold phase.
  destruct (roundActive s) eqn:Ha.
  - destruct H as (Hg & Hh & Hf & Hc). rewrite Hg.
    repeat split; try discriminate; auto.
  - destruct H as (Hf & Hc). rewrite Hf. cbn [isSome].
    repeat split; try discriminate; auto.
    destruct (gameOver s); discriminate.
Qed.

(** X3.  In every session the fill of a button is a tint only on the
    target, only outside a round and only before the flash deadline, and
    the tint is the success colour after a hit and the fail colour after
    a miss. *)
Theorem session_tint_is_outcome (btns : list Button) (now rnd : Q)
    (ts : list Tick) (at_ : Q) (idx : Z) :
  let s := run btns ts (startCamera btns now rnd) in
  buttonFill at_ s idx =
  if negb (roundActive s) && (idx =? targetIndex s)
     && Qltb at_ (flashEndsAt s)
  then if hitRecorded s then tintSuccess else tintFail
  else BTN_COLOR.
Proof.
  cbv zeta.
  pose proof (run_flashFits btns ts _ (startCamera_flashFits btns now rnd))
    as H.
  set (s := run btns ts (startCamera btns now rnd)) in *.
  unfold flashFits in H. unfold buttonFill.
  destruct (roundActive s) eqn:Ha; cbn [negb andb]; [reflexivity|].
  destruct H as (Hf & Hc). rewrite Hf, Hc. cbn [eqOpt].
  rewrite (Z.eqb_sym (targetIndex s) idx).
  destruct (idx =? targetIndex s); cbn [andb]; [|reflexivity].
  destruct (Qltb at_ (flashEndsAt s)); [|reflexivity].
  destruct (hitRecorded s); reflexivity.
Qed.

(** X4.  One frame costs at most one life, and it costs one only when it
    ends an active round whose deadline has passed as a miss. *)
Theorem frame_costs_one_life (btns : list Button) (t : Tick) (s : State) :
  hp s - 1 <= hp (processFrame btns t s) <= hp s /\
  (hp (processFrame btns t s) <> hp s ->
   gameOver s = false /\ roundActive s = true /\
   (roundEndsAt s <= tClock t)%Q /\
   isHit (detectStep btns (frame t) s) = false).
Proof.
  unfold processFrame.
  destruct (width (frame t) =? 0); [split; [lia|congruence]|].
  destruct (detectStep_frame btns (frame t) s) as [v ->].
  set (s1 := setLastActivated v s).
  change (gameOver s1) with (gameOver s).
  destruct (gameOver s) eqn:Hg; cbn [negb setPreviousFrame hp].
  { cbn. split; [lia|congruence]. }
  assert (He : forall x, hp s - 1 <= hp (endRound x s1) <= hp s).
  { intro x. unfold endRound. cbn [hp]. destruct (isHit s1); cbn; lia. }
  assert (Hm : forall x, hp (endRound x s1) <> hp s -> isHit s1 = false).
  { intro x. unfold endRound. cbn [hp].
    destruct (isHit s1); [cbn; congruence|reflexivity]. }
  unfold maybeAdvanceGameClock.
  change (gameOver s1) with (gameOver s).
  change (roundActive s1) with (roundActive s).
  change (roundEndsAt s1) with (roundEndsAt s).
  rewrite Hg. cbn [negb andb].
  destruct (roundActive s) eqn:Ha; cbn [andb].
  - destruct (Qgeb (tClock t) (roundEndsAt s)) eqn:Hd.
    + apply Qgeb_ge in Hd.
      match goal with
      | |- context [if ?c then _ else _] => destruct c
      end.
      * destruct (startRound_hp btns (tStart t) (random t)
                    (endRound (tEnd t) s1)) as [-> _].
        split; [apply He|]. intro Hn. repeat split; auto. exact (Hm _ Hn).
      * split; [apply He|]. intro Hn. repeat split; auto. exact (Hm _ Hn).
    + change (gameOver s1) with (gameOver s).
      change (roundActive s1) with (roundActive s).
      rewrite Hg, Ha. cbn [negb andb]. cbn. split; [lia|congruence].
  - change (gameOver s1) with (gameOver s).
    change (roundActive s1) with (roundActive s).
    rewrite Hg, Ha. cbn [negb andb].
    match goal with
    | |- context [if ?c then _ else _] => destruct c
    end.
    + destruct (startRound_hp btns (tStart t) (random t) s1) as [-> _].
      cbn. split; [lia|congruence].
    + cbn. split; [lia|congruence].
Qed.

Lemma checkVirtualButtons_inactive (btns : list Button) (cw : Z)
    (diff : list Z) (s : State) :
  roundActive s = false -> checkVirtualButtons btns cw diff s = s.
Proof.
  intro Ha. unfold checkVirtualButtons.
  rewrite Ha, forEachButton_inactive. reflexivity.
Qed.

Lemma detectStep_inactive (btns : list Button) (cur : ImageData)
    (s : State) :
  roundActive s = false -> detectStep btns cur s = s.
Proof.
  intro Ha. unfold detectStep. destruct (previousFrame s); [|reflexivity].
  destruct (gameOver s); cbn [negb];
    [reflexivity|apply checkVirtualButtons_inactive; exact Ha].
Qed.

(** X5.  Outside an active round the hit test records nothing, whatever
    moves in front of the camera. *)
Theorem no_activation_outside_round (btns : list Button) (cw : Z)
    (diff : list Z) (cur : ImageData) (s : State) :
  roundActive s = false ->
  checkVirtualButtons btns cw diff s = s /\ detectStep btns cur s = s.
Proof.
  intro Ha. split.
  - apply checkVirtualButtons_inactive. exact Ha.
  - apply detectStep_inactive. exact Ha.
Qed.

Lemma no_activation_outside_round_witness :
  detectStep [dot 0; dot 1] lit2 (inFlash dark2) = inFlash dark2.
Proof.
  exact (proj2 (no_activation_outside_round [dot 0; dot 1] 2 [] lit2
                  (inFlash dark2) eq_refl)).
Defined.

(** X6.  In the flash after a round a frame before the flash deadline
    changes nothing but the stored frame; the first frame at or after it
    starts the next round: a fresh target, the floor of the rounded
    product of the random number and the number of buttons; a deadline,
    the double nearest to the clock reading of [startRound] plus 2000 ms;
    no recorded activation, the flash fields cleared and the lives as
    they were. *)
Theorem flash_to_next_round (btns : list Button) (t : Tick) (s : State) :
  phase s = Flash -> width (frame t) <> 0 ->
  ((tClock t < flashEndsAt s)%Q ->
   gameView (processFrame btns t s) = gameView s) /\
  ((flashEndsAt s <= tClock t)%Q ->
   let s' := processFrame btns t s in
   phase s' = RoundActive /\
   roundEndsAt s' = fl (tStart t + 2000) /\
   targetIndex s' =
     Qfloor (fl (random t * inject_Z (Z.of_nat (length btns)))) /\
   lastActivatedIndex s' = None /\ hitRecorded s' = false /\
   flashingTarget s' = None /\ flashColor s' = None /\ hp s' = hp s).
Proof.
  intros Hp Hw.
  assert (Hs : gameOver s = false /\ roundActive s = false /\
               isSome (flashingTarget s) = true).
  { unfold phase in Hp.
    destruct (gameOver s), (roundActive s), (isSome (flashingTarget s));
      try discriminate; auto. }
  destruct Hs as (Hg & Ha & Hf).
  unfold processFrame. rewrite (proj2 (Z.eqb_neq _ _) Hw).
  rewrite (detectStep_inactive btns (frame t) s Ha).
  rewrite Hg. cbn [negb]. split.
  - intro Hlt. rewrite clock_flash_wait by assumption. reflexivity.
  - intro Hd. cbv zeta. rewrite clock_flash_end by assumption.
    unfold startRound. rewrite Hg. unfold phase.
    cbn [setPreviousFrame gameOver roundActive roundEndsAt targetIndex
         lastActivatedIndex hitRecorded flashingTarget flashColor hp].
    repeat split.
Qed.

Lemma flash_to_next_round_witness :
  phase (processFrame [dot 0; dot 1] (tickAt lit2 2500) (inFlash dark2)) =
  RoundActive.
Proof.
  refine (proj1 (proj2 (flash_to_next_round [dot 0; dot 1] (tickAt lit2 2500)
                          (inFlash dark2) eq_refl _) _)).
  - discriminate.
  - unfold Qle. cbn. lia.
Defined.

(** * Properties of the drawing *)

(** X7.  In every session whose random numbers lie in [0, 1),
    [getKnightPose] finds its button, and the pose is the neutral one
    exactly when no round is active; during a round it is the pose of
    the side of the target. *)
Theorem knight_pose_in_session (btns : list Button) (now rnd : Q)
    (ts : list Tick) :
  btns <> [] -> unitRandom rnd ->
  Forall (fun t => unitRandom (random t)) ts ->
  let s := run btns ts (startCamera btns now rnd) in
  exists pose,
    getKnightPose btns s = Some pose /\
    (pose = knightNeutral <-> phase s <> RoundActive) /\
    (forall btn, phase s = RoundActive ->
       buttonAt btns (targetIndex s) = Some btn ->
       pose = match side btn with
              | sideTop => knightTop
              | sideLeft => knightLeft
              | sideRight => knightRight
              end).
Proof.
  intros Hne Hr Hall. cbv zeta.
  pose proof (run_flashFits btns ts _ (startCamera_flashFits btns now rnd))
    as Hff.
  destruct (run_indicesOk btns ts _ Hne Hall
              (startCamera_indicesOk btns now rnd Hne Hr)) as [Ht _].
  set (s := run btns ts (startCamera btns now rnd)) in *.
  assert (Hb : exists b, buttonAt btns (targetIndex s) = Some b).
  { unfold buttonAt. unfold validIndex in Ht.
    rewrite (proj2 (Z.ltb_ge _ _) (proj1 Ht)).
    destruct (nth_error btns (Z.to_nat (targetIndex s))) as [b|] eqn:E.
    - exists b. reflexivity.
    - apply nth_error_None in E. lia. }
  destruct Hb as [b Hb].
  unfold getKnightPose. rewrite Hb.
  destruct (roundActive s) eqn:Ha; cbn [negb].
  - assert (Hg : gameOver s = false).
    { unfold flashFits in Hff. rewrite Ha in Hff. exact (proj1 Hff). }
    assert (Hp : phase s = RoundActive) by (apply phase_RoundActive; auto).
    eexists. split; [reflexivity|]. split.
    + split; [destruct (side b); discriminate|]. intro Hn. contradiction.
    + intros b' _ [= <-]. reflexivity.
  - exists knightNeutral. split; [reflexivity|]. split.
    + split; [|reflexivity]. intros _ Hp.
      apply phase_RoundActive in Hp. destruct Hp. congruence.
    + intros b' Hp. apply phase_RoundActive in Hp. destruct Hp. congruence.
Qed.

Lemma knight_pose_in_session_witness :
  exists pose,
    getKnightPose buttons (run buttons [] (startCamera buttons 0 (1 # 2))) =
    Some pose.
Proof.
  destruct (knight_pose_in_session buttons 0 (1 # 2) []) as (pose & H & _).
  - discriminate.
  - split; unfold Qle, Qlt; cbn; lia.
  - constructor.
  - exists pose. exact H.
Defined.

Lemma drawHearts_list (s : State) :
  drawHearts s =
  [mkHeart 12 12 16 (0 <? hp s); mkHeart 38 12 16 (1 <? hp s);
   mkHeart 64 12 16 (2 <? hp s)].
Proof. reflexivity. Qed.

Lemma filledHearts_clamp (s : State) :
  filledHearts (drawHearts s) = Z.max 0 (Z.min (hp s) MAX_HP).
Proof.
  rewrite drawHearts_list. unfold filledHearts, MAX_HP.
  cbn [filter heart_filled].
  destruct (0 <? hp s) eqn:E0; destruct (1 <? hp s) eqn:E1;
    destruct (2 <? hp s) eqn:E2; cbn [length Z.of_nat];
    rewrite ?Z.ltb_lt, ?Z.ltb_ge in *; lia.
Qed.

(** X8.  [drawHearts] draws [MAX_HP] hearts of size 16 in a row, 26
    pixels apart from x = 12; heart [i] is filled exactly when [i < hp],
    so the filled hearts are the first ones and their number is [hp]
    kept between 0 and [MAX_HP].  In every session it is [hp] itself. *)
Theorem hearts_show_lives (s : State) (btns : list Button) (now rnd : Q)
    (ts : list Tick) :
  length (drawHearts s) = Z.to_nat MAX_HP /\
  (forall i h, nth_error (drawHearts s) i = Some h ->
     heart_x h = 12 + 26 * Z.of_nat i /\ heart_y h = 12 /\
     heart_size h = 16 /\ heart_filled h = (Z.of_nat i <? hp s)) /\
  filledHearts (drawHearts s) = Z.max 0 (Z.min (hp s) MAX_HP) /\
  filledHearts (drawHearts (run btns ts (startCamera btns now rnd))) =
    hp (run btns ts (startCamera btns now rnd)).
Proof.
  split; [reflexivity|]. split; [|split; [apply filledHearts_clamp|]].
  - intros i h. rewrite drawHearts_list.
    destruct i as [|[|[|i]]]; cbn [nth_error].
    + intros [= <-]. cbn. auto.
    + intros [= <-]. cbn. auto.
    + intros [= <-]. cbn. auto.
    + destruct i; discriminate.
  - rewrite filledHearts_clamp.
    pose proof (run_livesOk btns ts _ (startCamera_livesOk btns now rnd))
      as [[_ H]|[_ H]]; unfold MAX_HP in *; lia.
Qed.

Lemma drawButtonsFrom_nth (now : Q) (s : State) (btns : list Button) :
  forall idx i look,
  nth_error (drawButtonsFrom now s btns idx) i = Some look ->
  (i < length btns)%nat /\
  look = mkLook (buttonFill now s (idx + Z.of_nat i))
           (buttonBorder s (idx + Z.of_nat i))
           (buttonSelected s (idx + Z.of_nat i)).
Proof.
  induction btns as [|b rest IH]; intros idx i look;
    cbn [drawButtonsFrom length].
  - destruct i; discriminate.
  - destruct i as [|i]; cbn [nth_error].
    + intros [= <-]. rewrite Z.add_0_r. split; [lia|reflexivity].
    + intro H. destruct (IH _ _ _ H) as [Hi ->]. split; [lia|].
      replace (idx + 1 + Z.of_nat i) with (idx + Z.of_nat (S i)) by lia.
      reflexivity.
Qed.

Lemma drawButtonsFrom_length (now : Q) (s : State) (btns : list Button) :
  forall idx, length (drawButtonsFrom now s btns idx) = length btns.
Proof.
  induction btns as [|b rest IH]; intro idx; cbn [drawButtonsFrom length];
    [reflexivity|]. rewrite IH. reflexivity.
Qed.

Lemma buttonFill_tint (now : Q) (s : State) (idx : Z) :
  buttonFill now s idx <> BTN_COLOR ->
  roundActive s = false /\ flashingTarget s = Some idx.
Proof.
  unfold buttonFill.
  destruct (roundActive s); cbn [negb andb]; [congruence|].
  unfold eqOpt. destruct (flashingTarget s) as [k|]; cbn [andb];
    [|congruence].
  destruct (k =? idx) eqn:E; cbn [andb]; [|congruence].
  apply Z.eqb_eq in E. subst k. auto.
Qed.

Lemma buttonBorder_bright (s : State) (idx : Z) :
  buttonBorder s idx = borderBright ->
  roundActive s = true /\ idx = targetIndex s.
Proof.
  unfold buttonBorder.
  destruct (gameOver s), (roundActive s); cbn [negb andb]; try discriminate.
  destruct (idx =? targetIndex s) eqn:E; [|discriminate].
  apply Z.eqb_eq in E. auto.
Qed.

Lemma buttonSelected_true (s : State) (idx : Z) :
  buttonSelected s idx = true ->
  roundActive s = true /\ lastActivatedIndex s = Some idx.
Proof.
  unfold buttonSelected, eqOpt.
  destruct (roundActive s); cbn [andb]; [|discriminate].
  destruct (lastActivatedIndex s) as [k|]; [|discriminate].
  intro E. apply Z.eqb_eq in E. subst k. auto.
Qed.

(** X9.  [drawVirtualButtons] gives one look per button.  On one frame a
    feedback tint never appears together with the bright target border or
    the selection shade on any button, and at most one button is tinted,
    at most one has the bright border and at most one is shaded. *)
Theorem button_looks_exclusive (btns : list Button) (now : Q) (s : State) :
  length (drawVirtualButtons btns now s) = length btns /\
  (forall i a, nth_error (drawVirtualButtons btns now s) i = Some a ->
     a = mkLook (buttonFill now s (Z.of_nat i))
           (buttonBorder s (Z.of_nat i))
           (buttonSelected s (Z.of_nat i))) /\
  (forall i j a b,
     nth_error (drawVirtualButtons btns now s) i = Some a ->
     nth_error (drawVirtualButtons btns now s) j = Some b ->
     (look_fill a <> BTN_COLOR ->
      look_border b = BTN_BORDER /\ look_selected b = false) /\
     (look_fill a <> BTN_COLOR -> look_fill b <> BTN_COLOR -> i = j) /\
     (look_border a = borderBright -> look_border b = borderBright ->
      i = j) /\
     (look_selected a = true -> look_selected b = true -> i = j)).
Proof.
  unfold drawVirtualButtons.
  split; [apply drawButtonsFrom_length|]. split.
  - intros i a H. destruct (drawButtonsFrom_nth _ _ _ _ _ _ H) as [_ ->].
    reflexivity.
  - intros i j a b Ha Hb.
    destruct (drawButtonsFrom_nth _ _ _ _ _ _ Ha) as [_ ->].
    destruct (drawButtonsFrom_nth _ _ _ _ _ _ Hb) as [_ ->].
    cbn [look_fill look_border look_selected Z.add].
    split; [|split; [|split]].
    + intro Hf. apply buttonFill_tint in Hf. destruct Hf as [Hr _].
      unfold buttonBorder, buttonSelected.
      rewrite Hr, andb_false_r. split; reflexivity.
    + intros H1 H2. apply buttonFill_tint in H1, H2.
      destruct H1 as [_ H1], H2 as [_ H2]. rewrite H1 in H2.
      injection H2. lia.
    + intros H1 H2. apply buttonBorder_bright in H1, H2.
      destruct H1 as [_ H1], H2 as [_ H2]. lia.
    + intros H1 H2. apply buttonSelected_true in H1, H2.
      destruct H1 as [_ H1], H2 as [_ H2]. rewrite H1 in H2.
      injection H2. lia.
Qed.

(** X10.  In every session the game-over banner is drawn exactly on the
    frames on which no heart is filled, and the triangle exactly during
    an active round; on a game-over frame there is no triangle, no
    bright border and no selection shade. *)
Theorem scene_in_session (btns : list Button) (now rnd : Q)
    (ts : list Tick) (t : Tick) :
  let s := run btns ts (startCamera btns now rnd) in
  let sc := drawScene btns t s in
  filledHearts (scene_hearts sc) = hp s /\
  (scene_gameOver sc = true <-> filledHearts (scene_hearts sc) = 0) /\
  (scene_gameOver sc = true <-> phase s = GameOver) /\
  (scene_triangle sc = true <-> phase s = RoundActive) /\
  (scene_gameOver sc = true ->
   scene_triangle sc = false /\
   forall look, In look (scene_buttons sc) ->
     look_border look = BTN_BORDER /\ look_selected look = false).
Proof.
  cbv zeta.
  pose proof (run_flashFits btns ts _ (startCamera_flashFits btns now rnd))
    as Hff.
  pose proof (run_livesOk btns ts _ (startCamera_livesOk btns now rnd))
    as Hl.
  set (s := run btns ts (startCamera btns now rnd)) in *.
  pose proof (filledHearts_clamp s) as Hf.
  assert (Hgo : gameOver s = true -> roundActive s = false).
  { intro Hg. unfold flashFits in Hff.
    destruct (roundActive s); [|reflexivity].
    destruct Hff as [Hff _]. congruence. }
  unfold drawScene.
  destruct (detectStep_frame btns (frame t) s) as [v ->].
  set (s1 := setLastActivated v s).
  cbn [scene_hearts scene_gameOver scene_triangle scene_buttons].
  change (gameOver s1) with (gameOver s).
  change (roundActive s1) with (roundActive s).
  assert (Hh : filledHearts (drawHearts s1) = hp s).
  { change (drawHearts s1) with (drawHearts s). rewrite Hf.
    destruct Hl as [[_ H]|[_ H]]; unfold MAX_HP in *; lia. }
  split; [exact Hh|]. rewrite Hh. split; [|split; [|split]].
  - destruct Hl as [[Hg H]|[Hg H]]; rewrite Hg; split;
      try discriminate; try lia; auto.
  - symmetry. apply phase_GameOver.
  - rewrite phase_RoundActive.
    destruct (gameOver s), (roundActive s); cbn; split;
      try discriminate; auto; intros [? ?]; discriminate.
  - intro Hg. rewrite Hg. split; [reflexivity|].
    intros look Hin. apply In_nth_error in Hin. destruct Hin as [i Hi].
    unfold drawVirtualButtons in Hi.
    destruct (drawButtonsFrom_nth _ _ _ _ _ _ Hi) as [_ ->].
    cbn [look_border look_selected].
    unfold buttonBorder, buttonSelected.
    change (gameOver s1) with (gameOver s).
    change (roundActive s1) with (roundActive s).
    rewrite Hg, (Hgo Hg). auto.
Qed.

(** * Further properties of the frame differ *)

Lemma absDiff_sym (a b : option Z) : absDiff a b = absDiff b a.
Proof.
  destruct a as [u|], b as [v|]; cbn [absDiff]; try reflexivity.
  f_equal. lia.
Qed.

Lemma pixelMotion_sym (a b : list Z) : pixelMotion a b = pixelMotion b a.
Proof.
  unfold pixelMotion, pixelDelta.
  rewrite (absDiff_sym (nth_error b 0)), (absDiff_sym (nth_error b 1)),
    (absDiff_sym (nth_error b 2)).
  reflexivity.
Qed.

Lemma detectLoop_sym (n : nat) : forall a b : list Z,
  length a = length b -> (length a <= n)%nat ->
  detectLoop a b = detectLoop b a.
Proof.
  induction n as [|n IH]; intros a b Hl Hn.
  - destruct a, b; try discriminate; [reflexivity|cbn in Hn; lia].
  - destruct a as [|a0 [|a1 [|a2 [|a3 ra]]]];
      destruct b as [|b0 [|b1 [|b2 [|b3 rb]]]]; cbn [length] in Hl;
      try lia; try reflexivity; cbn [detectLoop].
    + rewrite (pixelMotion_sym [a0; a1; a2] [b0; b1; b2]). reflexivity.
    + rewrite (pixelMotion_sym (a0 :: a1 :: a2 :: a3 :: ra)
                 (b0 :: b1 :: b2 :: b3 :: rb)).
      cbn [skipn]. rewrite (IH ra rb); [reflexivity| |].
      * cbn [length] in Hl. lia.
      * cbn [length] in Hn. lia.
Qed.

(** X11.  For two frames with as much data the differ is symmetric: the
    mask of a frame against another is the mask of the other against
    it. *)
Theorem detectMotion_symmetric (prev curr : ImageData) :
  length (data prev) = length (data curr) ->
  detectMotion prev curr = detectMotion curr prev.
Proof.
  intro H. unfold detectMotion.
  apply (detectLoop_sym (length (data prev))); [exact H|lia].
Qed.

Lemma detectMotion_symmetric_witness :
  detectMotion sample_prev sample_curr = detectMotion sample_curr sample_prev.
Proof.
  apply (detectMotion_symmetric sample_prev sample_curr). reflexivity.
Defined.

Lemma pixelMotion_binary (a b : list Z) :
  pixelMotion a b = 0 \/ pixelMotion a b = 255.
Proof.
  unfold pixelMotion. destruct (numGt (pixelDelta a b) 50); auto.
Qed.

Lemma detectLoop_binary (n : nat) : forall a b : list Z,
  (length b <= n)%nat ->
  Forall (fun v => v = 0 \/ v = 255) (detectLoop a b).
Proof.
  induction n as [|n IH]; intros a b Hn.
  - destruct b; [constructor|cbn in Hn; lia].
  - destruct b as [|b0 [|b1 [|b2 [|b3 rb]]]]; cbn [detectLoop];
      repeat (apply Forall_cons; [apply pixelMotion_binary|]);
      try apply Forall_nil.
    apply Forall_cons; [right; reflexivity|].
    apply IH. cbn [length] in Hn. lia.
Qed.

(** X12.  The mask is black and white and opaque: every entry is 0 or
    255, the three colour entries of a pixel are equal, and its alpha
    entry is 255. *)
Theorem detectMotion_mask_shape (prev curr : ImageData) :
  Forall (fun v => v = 0 \/ v = 255) (detectMotion prev curr) /\
  (forall p : nat, (4 * p + 3 < length (data curr))%nat ->
     exists m, (m = 0 \/ m = 255) /\
       nth_error (detectMotion prev curr) (4 * p) = Some m /\
       nth_error (detectMotion prev curr) (4 * p + 1) = Some m /\
       nth_error (detectMotion prev curr) (4 * p + 2) = Some m /\
       nth_error (detectMotion prev curr) (4 * p + 3) = Some 255).
Proof.
  unfold detectMotion. split.
  - apply (detectLoop_binary (length (data curr))). lia.
  - intros p Hp.
    exists (pixelMotion (skipn (4 * p) (data prev))
              (skipn (4 * p) (data curr))).
    split; [apply pixelMotion_binary|].
    replace (4 * p)%nat with (4 * p + 0)%nat at 1 by lia.
    rewrite !detectLoop_nth by lia. cbn [Nat.eqb]. auto.
Qed.

(** ** A still scene *)

Lemma pixelMotion_same (l : list Z) : pixelMotion l l = 0.
Proof.
  unfold pixelMotion, pixelDelta.
  destruct (nth_error l 0) as [a|]; [|reflexivity].
  destruct (nth_error l 1) as [b|]; [|reflexivity].
  destruct (nth_error l 2) as [c|]; [|reflexivity].
  cbn [absDiff numAdd numGt]. rewrite !Z.sub_diag. reflexivity.
Qed.

(** In the mask of a frame against itself only alpha entries are set. *)
Lemma detectLoop_same (n : nat) : forall (l : list Z) (k : nat) (v : Z),
  (length l <= n)%nat ->
  nth_error (detectLoop l l) k = Some v -> v = 0 \/ (k mod 4 = 3)%nat.
Proof.
  induction n as [|n IH]; intros l k v Hn.
  - destruct l; [destruct k; discriminate|cbn in Hn; lia].
  - destruct l as [|a0 [|a1 [|a2 [|a3 r]]]]; cbn [detectLoop skipn].
    + destruct k; discriminate.
    + rewrite pixelMotion_same.
      destruct k as [|[|k]]; cbn [nth_error]; try discriminate;
        intros [= <-]; auto.
    + rewrite pixelMotion_same.
      destruct k as [|[|[|k]]]; cbn [nth_error]; try discriminate;
        intros [= <-]; auto.
    + rewrite pixelMotion_same.
      destruct k as [|[|[|[|k]]]]; cbn [nth_error]; try discriminate;
        intros [= <-]; auto.
    + rewrite pixelMotion_same.
      destruct k as [|[|[|[|k]]]]; cbn [nth_error].
      * intros [= <-]; auto.
      * intros [= <-]; auto.
      * intros [= <-]; auto.
      * intros _. right. reflexivity.
      * intro H. apply IH in H; [|cbn [length] in Hn; lia].
        destruct H as [H|H]; [auto|right].
        replace (S (S (S (S k)))) with (k + 1 * 4)%nat by lia.
        rewrite Nat.Div0.mod_add. exact H.
Qed.

Lemma diffAt_Qeq (diff : list Z) (di di' : Q) :
  (di == di')%Q -> diffAt diff di = diffAt diff di'.
Proof.
  intro H. unfold diffAt. rewrite (Qred_complete _ _ H). reflexivity.
Qed.

Lemma diffAt_inject (diff : list Z) (di : Q) (n : Z) :
  (di == inject_Z n)%Q ->
  diffAt diff di = if 0 <=? n then nth_error diff (Z.to_nat n) else None.
Proof.
  intro H. unfold diffAt. cbv zeta.
  rewrite (Qred_complete _ _ H), Qred_inject_Z. cbn [inject_Z Qnum Qden].
  rewrite Pos.eqb_refl. reflexivity.
Qed.

(** A read at an even index of the mask of a frame against itself finds
    no motion. *)
Lemma still_even_read (l : list Z) (di : Q) (n : Z) :
  (di == inject_Z (2 * n))%Q ->
  numGt (diffAt (detectLoop l l) di) 128 = false.
Proof.
  intro H. rewrite (diffAt_inject _ _ _ H).
  destruct (0 <=? 2 * n) eqn:E; [|reflexivity].
  apply Z.leb_le in E.
  destruct (nth_error (detectLoop l l) (Z.to_nat (2 * n))) as [v|] eqn:Hv;
    [|reflexivity].
  apply (detectLoop_same (length l)) in Hv; [|lia].
  destruct Hv as [-> | Hm]; [reflexivity|].
  exfalso.
  assert (Hz : Z.of_nat (Z.to_nat (2 * n) mod 4) = 3) by lia.
  rewrite Nat2Z.inj_mod, Z2Nat.id in Hz by lia.
  change (Z.of_nat 4) with 4 in Hz.
  pose proof (Z.mod_pos_bound (2 * n) 4 ltac:(lia)) as Hb.
  assert (He : (2 * n) mod 4 = 2 * (n mod 2)).
  { replace 4 with (2 * 2) by reflexivity.
    rewrite Z.mul_mod_distr_l by lia. reflexivity. }
  lia.
Qed.

Lemma halfAligned_read (cw : Z) (btn : Button) (k1 k2 : nat) :
  halfAligned cw btn ->
  exists n : Z,
    ((( btn_y btn cw + inject_Z (Z.of_nat k1)) * inject_Z cw
      + (btn_x btn cw + inject_Z (Z.of_nat k2))) * 4
     == inject_Z (2 * n))%Q.
Proof.
  intros (X2 & Y & Hx & Hy).
  exists (2 * ((Y + Z.of_nat k1) * cw + Z.of_nat k2) + X2).
  rewrite Hx, Hy.
  repeat (rewrite inject_Z_mult || rewrite inject_Z_plus).
  change (inject_Z 2) with 2%Q.
  unfold Qdiv. change (/ 2)%Q with (1 # 2)%Q. ring.
Qed.

Lemma motionCount_none (cw : Z) (diff : list Z) (btn : Button) :
  (forall k1 k2 : nat,
     motionAt cw diff (btn_y btn cw + inject_Z (Z.of_nat k1))%Q
       (btn_x btn cw + inject_Z (Z.of_nat k2))%Q = false) ->
  motionCount cw diff btn = 0.
Proof.
  intro H. unfold motionCount, loopRange.
  rewrite (fold_left_map_in _ _ (fun acc _ => acc)).
  - generalize (seq 0 (Z.to_nat (btn_h btn))). intro l.
    induction l as [|x l IH]; [reflexivity|exact IH].
  - intros acc j _.
    rewrite (fold_left_map_in _ _ (fun acc' _ => acc')).
    + generalize (seq 0 (Z.to_nat (btn_w btn))). intro l. revert acc.
      induction l as [|x l IH]; intro acc; [reflexivity|apply IH].
    + intros acc' k _. rewrite H. reflexivity.
Qed.

Lemma exceeds_none (cw : Z) (diff : list Z) (btn : Button) :
  motionCount cw diff btn = 0 -> exceeds cw diff btn = false.
Proof.
  intro H. unfold exceeds, ratio. rewrite H. apply Qltb_ge.
  unfold Qdiv. rewrite Qmult_0_l. unfold THRESHOLD, Qle. cbn. lia.
Qed.

Lemma buttons_halfAligned (cw : Z) (btn : Button) :
  In btn buttons -> halfAligned cw btn.
Proof.
  intros [<-|[<-|[<-|[]]]]; unfold halfAligned; cbn [btn_x btn_y].
  - exists (cw - 84), 16. split; [|reflexivity].
    unfold BUTTON_SIZE, Z.sub. rewrite inject_Z_plus, inject_Z_opp.
    reflexivity.
  - exists 32, 112. split; reflexivity.
  - exists (2 * (cw - 100)), 112. split; [|reflexivity].
    unfold BUTTON_PADDING, BUTTON_SIZE.
    replace (cw - 16 - 84) with (cw - 100) by lia.
    rewrite inject_Z_mult. change (inject_Z 2) with 2%Q.
    unfold Qdiv. change (/ 2)%Q with (1 # 2)%Q. ring.
Qed.

Lemma still_quiet (cw : Z) (f : ImageData) (btn : Button) :
  halfAligned cw btn ->
  motionCount cw (detectMotion f f) btn = 0 /\
  exceeds cw (detectMotion f f) btn = false.
Proof.
  intro Hal.
  assert (H0 : motionCount cw (detectMotion f f) btn = 0).
  { apply motionCount_none. intros k1 k2. unfold motionAt, detectMotion.
    destruct (halfAligned_read cw btn k1 k2 Hal) as [n Hn].
    apply (still_even_read _ _ n Hn). }
  split; [exact H0|apply exceeds_none; exact H0].
Qed.

(** X13.  A frame equal to the one before it moves nothing: on a canvas
    of any width none of the declared buttons counts a motion pixel or
    passes the activation test, and the hit test leaves the state as it
    is. *)
Theorem still_scene_activates_nothing (cw : Z) (f : ImageData) (s : State) :
  (forall btn, In btn buttons ->
     motionCount cw (detectMotion f f) btn = 0 /\
     exceeds cw (detectMotion f f) btn = false) /\
  (previousFrame s = Some f -> detectStep buttons f s = s).
Proof.
  split.
  - intros btn Hb. apply still_quiet. apply buttons_halfAligned. exact Hb.
  - intro Hp. unfold detectStep. rewrite Hp.
    destruct (gameOver s); cbn [negb]; [reflexivity|].
    apply checkVirtualButtons_quiet. intros b Hb.
    apply still_quiet. apply buttons_halfAligned. exact Hb.
Qed.

(** * Further properties of the hit test *)

(** X14.  The hit test does not clip a region at the edges of the mask.
    A read past the right edge of a row is a read in the next row; a read
    at a whole index before the start or past the end of the mask counts
    nothing, and neither does a read at an index that is not whole. *)
Theorem hit_test_reads (cw : Z) (diff : list Z) (j i : Q) :
  motionAt cw diff j (i + inject_Z cw)%Q = motionAt cw diff (j + 1)%Q i /\
  (forall n : Z,
     ((j * inject_Z cw + i) * 4 == inject_Z n)%Q ->
     n < 0 \/ Z.of_nat (length diff) <= n ->
     motionAt cw diff j i = false) /\
  (Qden (Qred ((j * inject_Z cw + i) * 4)) <> 1%positive ->
   motionAt cw diff j i = false).
Proof.
  split; [|split].
  - unfold motionAt. f_equal. apply diffAt_Qeq. ring.
  - intros n Hn Hout. unfold motionAt. rewrite (diffAt_inject _ _ _ Hn).
    destruct (0 <=? n) eqn:E; [|reflexivity].
    apply Z.leb_le in E.
    assert (Hnone : nth_error diff (Z.to_nat n) = None).
    { apply nth_error_None. lia. }
    rewrite Hnone. reflexivity.
  - intro Hd. unfold motionAt, diffAt. cbv zeta.
    apply Pos.eqb_neq in Hd. rewrite Hd. reflexivity.
Qed.

(** X15.  For a region of positive width and height the motion count
    lies between 0 and the number of its pixels, and the motion ratio
    between 0 and 1. *)
Theorem ratio_between_0_and_1 (cw : Z) (diff : list Z) (btn : Button) :
  0 < btn_w btn -> 0 < btn_h btn ->
  0 <= motionCount cw diff btn <= totalPixels btn /\
  (0 <= ratio cw diff btn)%Q /\ (ratio cw diff btn <= 1)%Q.
Proof.
  intros Hw Hh.
  pose proof (motionCount_bounds cw diff btn) as Hb.
  rewrite !Z2Nat.id in Hb by lia.
  fold (totalPixels btn) in Hb.
  assert (Hpos : 0 < totalPixels btn) by (unfold totalPixels; nia).
  split; [exact Hb|].
  unfold ratio.
  set (m := motionCount cw diff btn) in *.
  destruct (totalPixels btn) as [|n|n]; try lia.
  unfold Qle, Qdiv, Qmult, Qinv, inject_Z. cbn [Qnum Qden].
  rewrite Pos.mul_1_l, !Z.mul_1_r. split; lia.
Qed.

Lemma ratio_between_0_and_1_witness :
  (ratio 20 (maskRow 3 17) strip <= 1)%Q.
Proof.
  refine (proj2 (proj2 (ratio_between_0_and_1 20 (maskRow 3 17) strip _ _)));
    reflexivity.
Defined.

(** X16.  Each declared button has 7056 pixels and passes the activation
    test exactly when at least 1059 of them moved; the test decides the
    same way in double precision. *)
Theorem declared_button_threshold (cw : Z) (diff : list Z) (btn : Button) :
  In btn buttons ->
  totalPixels btn = 7056 /\
  (exceeds cw diff btn = true <-> 1059 <= motionCount cw diff btn) /\
  exceeds cw diff btn = Double.ratioTest (motionCount cw diff btn) 7056.
Proof.
  intro Hb.
  assert (Ht : totalPixels btn = 7056).
  { destruct Hb as [<-|[<-|[<-|[]]]]; reflexivity. }
  split; [exact Ht|]. split.
  - rewrite (exceeds_count cw diff btn) by lia. rewrite Ht. lia.
  - rewrite (exceeds_double cw diff btn Hb), Ht. reflexivity.
Qed.

Lemma declared_button_threshold_witness :
  exceeds 200 [] (mkButton capture sideTop BUTTON_SIZE BUTTON_SIZE
                    (fun cw => (inject_Z cw - inject_Z BUTTON_SIZE) / 2)%Q
                    (fun _ => inject_Z BUTTON_PADDING)) = true <->
  1059 <= motionCount 200 []
            (mkButton capture sideTop BUTTON_SIZE BUTTON_SIZE
               (fun cw => (inject_Z cw - inject_Z BUTTON_SIZE) / 2)%Q
               (fun _ => inject_Z BUTTON_PADDING)).
Proof.
  refine (proj1 (proj2 (declared_button_threshold 200 [] _ _))).
  left. reflexivity.
Defined.

(** X17.  On a canvas at least 200 pixels wide and 196 high the declared
    buttons lie on the canvas and no two of them share a pixel; the top
    button is centred. *)
Theorem buttons_layout (cw ch : Z) :
  200 <= cw -> 196 <= ch ->
  Forall (insideCanvas cw ch) buttons /\
  (forall i j a b, nth_error buttons i = Some a ->
     nth_error buttons j = Some b -> i <> j -> apart cw a b) /\
  (forall a, nth_error buttons 0 = Some a ->
     (btnLeft cw a + btnRight cw a == inject_Z cw)%Q).
Proof.
  intros Hw Hh.
  assert (Qw : (200 <= inject_Z cw)%Q).
  { change 200%Q with (inject_Z 200). rewrite <- Zle_Qle. exact Hw. }
  assert (Qh : (196 <= inject_Z ch)%Q).
  { change 196%Q with (inject_Z 196). rewrite <- Zle_Qle. exact Hh. }
  assert (Er : (inject_Z (cw - BUTTON_PADDING - BUTTON_SIZE)
                == inject_Z cw - 100)%Q).
  { unfold BUTTON_PADDING, BUTTON_SIZE.
    replace (cw - 16 - 84) with (cw + - (100)) by lia.
    rewrite inject_Z_plus, inject_Z_opp. reflexivity. }
  assert (E84 : inject_Z BUTTON_SIZE = 84%Q) by reflexivity.
  assert (E16 : inject_Z BUTTON_PADDING = 16%Q) by reflexivity.
  assert (E112 : inject_Z (BUTTON_PADDING + BUTTON_SIZE + ROW_GAP) = 112%Q)
    by reflexivity.
  split; [|split].
  - unfold buttons, insideCanvas, btnLeft, btnRight, btnTop, btnBottom.
    repeat apply Forall_cons; try apply Forall_nil;
      cbn [btn_x btn_y btn_w btn_h];
      rewrite ?Er, ?E84, ?E16, ?E112;
      try change (inject_Z 112) with 112%Q; halve; repeat split; lra.
  - intros i j a b Ha Hb Hij.
    unfold apart, btnLeft, btnRight, btnTop, btnBottom.
    destruct i as [|[|[|i]]]; cbn in Ha; try (destruct i; discriminate);
      destruct j as [|[|[|j]]]; cbn in Hb; try (destruct j; discriminate);
      try congruence;
      injection Ha as <-; injection Hb as <-;
      cbn [btn_x btn_y btn_w btn_h];
      rewrite ?Er, ?E84, ?E16, ?E112;
      try change (inject_Z 112) with 112%Q; halve; lra.
  - intros a [= <-]. unfold btnLeft, btnRight.
    cbn [btn_x btn_w]. rewrite E84. halve. ring.
Qed.

Lemma buttons_layout_witness : Forall (insideCanvas 200 196) buttons.
Proof.
  refine (proj1 (buttons_layout 200 196 _ _)); lia.
Defined.

(** X18.  The knight image is drawn centred on the canvas and covers all
    of it. *)
Theorem knight_covers_canvas (cw ch : Z) :
  0 <= cw -> 0 <= ch ->
  let '(x, y, w, h) := knightRect cw ch in
  (x <= 0)%Q /\ (y <= 0)%Q /\
  (inject_Z cw <= x + w)%Q /\ (inject_Z ch <= y + h)%Q /\
  (x + w / 2 == inject_Z cw / 2)%Q /\ (y + h / 2 == inject_Z ch / 2)%Q.
Proof.
  intros Hw Hh.
  assert (Qw : (0 <= inject_Z cw)%Q).
  { change 0%Q with (inject_Z 0). rewrite <- Zle_Qle. exact Hw. }
  assert (Qh : (0 <= inject_Z ch)%Q).
  { change 0%Q with (inject_Z 0). rewrite <- Zle_Qle. exact Hh. }
  unfold knightRect. cbv zeta. halve.
  repeat split; try lra; ring.
Qed.

Lemma knight_covers_canvas_witness :
  let '(x, y, w, h) := knightRect 200 196 in (x <= 0)%Q.
Proof.
  exact (proj1 (knight_covers_canvas 200 196 ltac:(lia) ltac:(lia))).
Defined.

(** * The stored frame and the choice of the target *)

Lemma startRound_previousFrame (btns : list Button) (now rnd : Q)
    (s : State) :
  previousFrame (startRound btns now rnd s) = previousFrame s.
Proof. unfold startRound. destruct (gameOver s); reflexivity. Qed.

Lemma processFrame_previousFrame (btns : list Button) (t : Tick)
    (s : State) :
  previousFrame (processFrame btns t s) = storedAfter (previousFrame s) t.
Proof.
  unfold processFrame, storedAfter.
  destruct (width (frame t) =? 0); reflexivity.
Qed.

(** X19.  The stored frame is always the last frame that was processed:
    a frame of width 0 is skipped and leaves everything as it is, any
    other frame becomes the stored one, so the differ compares each
    frame with the processed frame just before it. *)
Theorem stored_frame_is_last_processed (btns : list Button)
    (ts : list Tick) (t : Tick) (s : State) :
  (width (frame t) = 0 -> processFrame btns t s = s) /\
  (width (frame t) <> 0 ->
   previousFrame (processFrame btns t s) = Some (frame t)) /\
  previousFrame (run btns ts s) = fold_left storedAfter ts (previousFrame s) /\
  (forall prev, previousFrame (run btns ts s) = Some prev ->
     gameOver (run btns ts s) = false ->
     detectStep btns (frame t) (run btns ts s) =
     checkVirtualButtons btns (width (frame t))
       (detectMotion prev (frame t)) (run btns ts s)).
Proof.
  split; [|split; [|split]].
  - intro H. unfold processFrame. rewrite H. reflexivity.
  - intro H. rewrite processFrame_previousFrame. unfold storedAfter.
    rewrite (proj2 (Z.eqb_neq _ _) H). reflexivity.
  - revert s. induction ts as [|u ts IH]; intro s; [reflexivity|].
    cbn [run fold_left]. fold (run btns ts (processFrame btns u s)).
    rewrite IH, processFrame_previousFrame. reflexivity.
  - intros prev Hp Hg. unfold detectStep. rewrite Hp, Hg. reflexivity.
Qed.

Lemma floor_unique (x : Q) (k : Z) :
  Qfloor x = k <-> (inject_Z k <= x)%Q /\ (x < inject_Z (k + 1))%Q.
Proof.
  split.
  - intros <-. split; [apply Qfloor_le|apply Qlt_floor].
  - intros [Hl Hu].
    pose proof (Qfloor_le x) as Fl. pose proof (Qlt_floor x) as Fu.
    assert (H1 : (inject_Z k < inject_Z (Qfloor x + 1))%Q)
      by (eapply Qle_lt_trans; eassumption).
    assert (H2 : (inject_Z (Qfloor x) < inject_Z (k + 1))%Q)
      by (eapply Qle_lt_trans; eassumption).
    rewrite <- Zlt_Qlt in H1, H2. lia.
Qed.

(** X20.  [startRound] gives every button its share of the random
    numbers, up to the rounding of the product: with [x] the exact
    product of the random number and the number of buttons and [u] the
    unit roundoff, the target is button [k] whenever [x - x * u] and
    [x + x * u] both lie from [k] up to, but not at, [k + 1], and only if
    one of them does.  At the edge of a share the rounding decides: with
    the three declared buttons the largest double below 2/3 picks
    button 2. *)
Theorem target_has_equal_share (btns : list Button) (now rnd : Q)
    (s : State) (k : Z) :
  btns <> [] -> gameOver s = false -> (0 <= rnd)%Q ->
  let x := (rnd * inject_Z (Z.of_nat (length btns)))%Q in
  let target := targetIndex (startRound btns now rnd s) in
  ((inject_Z k <= x - x * unitRoundoff)%Q ->
   (x + x * unitRoundoff < inject_Z (k + 1))%Q -> target = k) /\
  (target = k ->
   (inject_Z k <= x + x * unitRoundoff)%Q /\
   (x - x * unitRoundoff < inject_Z (k + 1))%Q) /\
  (6004799503160661 # 9007199254740992 < 2 # 3)%Q /\
  targetIndex
    (startRound buttons now (6004799503160661 # 9007199254740992) s) = 2.
Proof.
  intros Hne Hg Hr. cbv zeta.
  assert (Hn : (0 < inject_Z (Z.of_nat (length btns)))%Q).
  { change 0%Q with (inject_Z 0). rewrite <- Zlt_Qlt.
    destruct btns; [contradiction|cbn [length]; lia]. }
  assert (Hx : (0 <= rnd * inject_Z (Z.of_nat (length btns)))%Q).
  { apply Qmult_le_0_compat; [exact Hr|]. apply Qlt_le_weak. exact Hn. }
  destruct (fl_error _ Hx) as [Hl Hu].
  unfold startRound. rewrite Hg. cbn [targetIndex].
  split; [|split; [|split]].
  - intros H1 H2. apply floor_unique. split; lra.
  - intro H. apply floor_unique in H. destruct H as [H1 H2]. split; lra.
  - reflexivity.
  - vm_compute. reflexivity.
Qed.

Lemma target_has_equal_share_witness :
  targetIndex (startRound [dot 0; dot 1] 0 (3 # 4) initialState) = 1.
Proof.
  refine (proj1 (target_has_equal_share [dot 0; dot 1] 0 (3 # 4)
                   initialState 1 _ eq_refl _) _ _).
  - discriminate.
  - vm_compute. discriminate.
  - vm_compute. discriminate.
  - vm_compute. reflexivity.
Defined.
